(** * Composite filters: [FilterRepeater] and [FilterMapper]

    A shallow embedding of [filters/complex.py] and the properties of its
    two composite filters.

    Python values are restricted to [None], integers, text, lists and
    dicts.  On the hashable ones ([None], integers, text) Python's [==]
    coincides with Rocq's [=], so dict lookup and set membership are
    modelled with decidable equality.  Dict keys and set elements are
    hashable by construction, hence the separate type [Key]. *)

From stdpp Require Import base option list strings gmap pretty.

Set Default Proof Using "Type".
Set Warnings "-register-all".

(** ** Python values *)

Inductive Key : Type :=
| KNone
| KInt (z : Z)
| KStr (s : string).

Inductive PyVal : Type :=
| VNone
| VInt (z : Z)
| VStr (s : string)
| VList (l : list PyVal)
| VDict (d : list (Key * PyVal)).

(** A dict is kept in iteration order (an association list). *)
Abbreviation Mapping := (list (Key * PyVal)).

Global Instance Key_eq_dec : EqDecision Key.
Proof. solve_decision. Defined.

Global Instance Key_countable : Countable Key.
Proof.
  refine (inj_countable'
    (λ k, match k with
          | KNone => inl ()
          | KInt z => inr (inl z)
          | KStr s => inr (inr s)
          end)
    (λ x, match x with
          | inl _ => KNone
          | inr (inl z) => KInt z
          | inr (inr s) => KStr s
          end) _).
  by intros [].
Defined.

(** A key seen as a value. *)
Definition of_key (k : Key) : PyVal :=
  match k with
  | KNone => VNone
  | KInt z => VInt z
  | KStr s => VStr s
  end.

(** [hash(v)]: [None] stands for the [TypeError] of an unhashable value. *)
Definition hash (v : PyVal) : option Key :=
  match v with
  | VNone => Some KNone
  | VInt z => Some (KInt z)
  | VStr s => Some (KStr s)
  | VList _ | VDict _ => None
  end.

(** [isinstance(v, Mapping)] and [isinstance(v, Iterable)]. *)
Definition is_Mapping (v : PyVal) : bool :=
  match v with VDict _ => true | _ => false end.

Definition is_Iterable (v : PyVal) : bool :=
  match v with VDict _ | VList _ | VStr _ => true | _ => false end.

(** ** Exceptions and the error-collecting context *)

Inductive Exn : Type := TypeError | KeyError.

Inductive Outcome (A : Type) : Type :=
| Ok (a : A)
| Raised (e : Exn).
Global Arguments Ok {A} a.
Global Arguments Raised {A} e.

(** One recorded error: reason code, offending value, path segments
    (outermost first). *)
Record ErrorRecord : Type := mkError {
  reason : string;
  offending : PyVal;
  path : list Key
}.

(** The state one application threads through: the messages collected so
    far and the filter's [_has_errors] flag, which is down when an
    application starts. *)
Record Ctx : Type := mkCtx {
  messages : list ErrorRecord;
  _has_errors : bool
}.

Definition fresh : Ctx := mkCtx [] false.

Definition M (A : Type) : Type := Ctx → Outcome A * Ctx.

Global Instance M_ret : MRet M := λ A a c, (Ok a, c).
Global Instance M_bind : MBind M := λ A B f m c,
  match m c with
  | (Ok a, c') => f a c'
  | (Raised e, c') => (Raised e, c')
  end.

Global Instance M_fmap : FMap M := λ A B f m, a ← m; mret (f a).

Definition raise {A} (e : Exn) : M A := λ c, (Raised e, c).

(** The context after [errs] have been recorded: they are appended, and
    the flag is raised when there are any. *)
Definition extend (c : Ctx) (errs : list ErrorRecord) : Ctx :=
  mkCtx (messages c ++ errs) (_has_errors c || negb (bool_decide (errs = []))).

Definition record (errs : list ErrorRecord) : M () := λ c, (Ok (), extend c errs).

Definition has_errors : M bool := λ c, (Ok (_has_errors c), c).

(** An operation that may raise but does not touch the context. *)
Definition lift {A} (o : Outcome A) : M A := λ c, (o, c).

(** ** Ordered dicts *)

(** [d[k] = v]: an existing key keeps its position, a new one goes last. *)
Fixpoint setitem {A} (d : list (Key * A)) (k : Key) (v : A) : list (Key * A) :=
  match d with
  | [] => [(k, v)]
  | (k', v') :: d' =>
      if decide (k' = k) then (k', v) :: d' else (k', v') :: setitem d' k v
  end.

(** [OrderedDict(pairs)]: the pairs are inserted one after the other. *)
Definition OrderedDict {A} (pairs : list (Key * A)) : list (Key * A) :=
  foldl (λ d kv, setitem d kv.1 kv.2) [] pairs.

(** [d.get(k)]; [k in d] is [is_Some (get d k)]. *)
Fixpoint get {A} (d : list (Key * A)) (k : Key) : option A :=
  match d with
  | [] => None
  | (k', v) :: d' => if decide (k' = k) then Some v else get d' k
  end.

Definition contains {A} (d : list (Key * A)) (k : Key) : bool :=
  bool_decide (is_Some (get d k)).

(** [d[k]], which raises [KeyError] on an absent key. *)
Definition getitem (d : Mapping) (k : Key) : M PyVal :=
  match get d k with
  | Some v => mret v
  | None => raise KeyError
  end.

(** The characters of a text, each a text of length one. *)
Fixpoint chars (s : string) : list PyVal :=
  match s with
  | EmptyString => []
  | String a s' => VStr (String a EmptyString) :: chars s'
  end.

(** What [enumerate(v)] runs over: the elements of a list, the characters
    of a text, the keys of a dict; [None] stands for the [TypeError] of a
    value that cannot be iterated. *)
Definition elements_of (v : PyVal) : option (list PyVal) :=
  match v with
  | VList l => Some l
  | VStr s => Some (chars s)
  | VDict d => Some (of_key <$> d.*1)
  | VNone | VInt _ => None
  end.

(** ** The collaborators outside [complex.py] *)

(** Modelled from the spec: the base filter contract, which is not in
    [complex.py].  A single filter maps a value to its replacement and the
    errors it records, with paths relative to the value; it raises nothing,
    since [_filter] turns an exception into a recorded error.  A chain is
    a filter or the absence of one ([_normalize] may return [None]). *)
Definition Filter : Type := PyVal → PyVal * list ErrorRecord.
Definition FilterChain : Type := option Filter.

Definition apply_chain (filter_chain : FilterChain) (value : PyVal)
    : PyVal * list ErrorRecord :=
  match filter_chain with
  | None => (value, [])
  | Some f => f value
  end.

(** What the surrounding library and the Python runtime fix and this file
    does not: the value the invalid-value handler returns, the [Unicode]
    filter ([None] when it raises [FilterError]), [repr], and the order in
    which a set is iterated. *)
Class Env : Type := {
  placeholder : PyVal;
  Unicode_apply : PyVal → option string;
  repr : PyVal → string;
  set_iter : gset Key → list Key;
  set_iter_perm : ∀ s, set_iter s ≡ₚ elements s
}.

(** Modelled from the spec: the reason code of the [Type] filter, which is
    not in [complex.py]. *)
Definition CODE_TYPE_MISMATCH : string := "TYPE_MISMATCH".

(** Modelled from the spec: the path segment a [sub_key] argument stands
    for.  Python's [None], the default of the argument, is the absence of a
    sub-key. *)
Definition segment (sub_key : Key) : list Key :=
  match sub_key with
  | KNone => []
  | _ => [sub_key]
  end.

(** Modelled from the spec: the errors of a nested filter are addressed
    below the path segment of the item they belong to. *)
Definition under (sub_key : Key) (e : ErrorRecord) : ErrorRecord :=
  mkError (reason e) (offending e) (segment sub_key ++ path e).

Section base.
Context `{Env}.

(** Modelled from the spec: [BaseFilter._invalid_value], which is not in
    [complex.py].  Given a value, a reason code and a path segment it
    records the error and returns a placeholder value. *)
Definition _invalid_value
    (value : PyVal) (reason : string) (sub_key : Key) : M PyVal :=
  record [mkError reason value (segment sub_key)];; mret placeholder.

(** Modelled from the spec: [BaseFilter._filter], which is not in
    [complex.py].  It applies the chain to the value, records the chain's
    errors under the path segment and returns the transformed value; the
    absent chain performs no transformation. *)
Definition _filter
    (value : PyVal) (filter_chain : FilterChain) (sub_key : Key) : M PyVal :=
  let r := apply_chain filter_chain value in
  record (under sub_key <$> r.2);; mret r.1.

(** Modelled from the spec: the leaf filter [Type(allowed)], which is
    not in [complex.py].  A value of another shape fails with a type
    error recorded against the current path. *)
Definition Type_ (allowed : PyVal → bool) : FilterChain :=
  Some (λ v, if allowed v then (v, [])
             else (placeholder, [mkError CODE_TYPE_MISMATCH v []])).

End base.

(** ** [class FilterRepeater] *)

Module FilterRepeater.

Definition CODE_EXTRA_KEY : string := "unexpected".

Record t : Type := mk {
  _filter_chain : FilterChain;
  restrict_keys : option (gset Key)
}.

Definition __init__
    (filter_chain : FilterChain) (restrict_keys : option (list Key)) : t :=
  mk filter_chain (list_to_set <$> restrict_keys).

(** What [iter] yields: pairs for a mapping, items otherwise. *)
Inductive Yields : Type :=
| Pairs (l : Mapping)
| Items (l : list PyVal).

Section methods.
Context `{Env}.

Definition unicodify_key (key : Key) : string :=
  match key with
  | KNone => "None"
  | _ =>
      match Unicode_apply (of_key key) with
      | Some u => u
      | None => repr (of_key key)
      end
  end.

Definition _apply_item
    (key : string) (value : PyVal) (filter_chain : FilterChain) : M PyVal :=
  _filter value filter_chain (KStr key).

(** [(self.restrict_keys is None) or (k in self.restrict_keys)] *)
Definition admitted (self : t) (k : Key) : bool :=
  match restrict_keys self with
  | None => true
  | Some s => bool_decide (k ∈ s)
  end.

(** The loop over [iteritems(value)]. *)
Fixpoint iter_items (self : t) (items : Mapping) : M Mapping :=
  match items with
  | [] => mret []
  | (k, v) :: rest =>
      let u_key := unicodify_key k in
      if admitted self k then
        v' ← _apply_item u_key v (_filter_chain self);
        ys ← iter_items self rest;
        mret ((k, v') :: ys)
      else
        _invalid_value v CODE_EXTRA_KEY (KStr u_key);;
        iter_items self rest
  end.

(** The loop over [enumerate(value)], from index [i] on. *)
Fixpoint iter_enumerate (self : t) (i : Z) (items : list PyVal)
    : M (list PyVal) :=
  match items with
  | [] => mret []
  | v :: rest =>
      let u_key := unicodify_key (KInt i) in
      y ← (if admitted self (KInt i) then
             _apply_item u_key v (_filter_chain self)
           else
             _invalid_value v CODE_EXTRA_KEY (KStr u_key));
      ys ← iter_enumerate self (i + 1) rest;
      mret (y :: ys)
  end.

Definition iter (self : t) (value : PyVal) : M Yields :=
  match value with
  | VNone => mret (Items [])
  | VDict d => Pairs <$> iter_items self d
  | _ =>
      match elements_of value with
      | Some l => Items <$> iter_enumerate self 0 l
      | None => raise TypeError
      end
  end.

(** [result_type(self.iter(value))]: [result_type] and the branch of
    [iter] are chosen by the same [isinstance(value, Mapping)], so pairs
    go into an [OrderedDict] and items into a [list]. *)
Definition result_type (ys : Yields) : PyVal :=
  match ys with
  | Pairs l => VDict (OrderedDict l)
  | Items l => VList l
  end.

Definition _apply (self : t) (value : PyVal) : M PyVal :=
  value ← _filter value (Type_ is_Iterable) KNone;
  failed ← has_errors;
  if failed : bool then mret VNone
  else result_type <$> iter self value.

End methods.
End FilterRepeater.

(** ** [class FilterMapper] *)

Module FilterMapper.

Definition CODE_EXTRA_KEY : string := "unexpected".
Definition CODE_MISSING_KEY : string := "missing".

(** The value of [allow_missing_keys] and [allow_extra_keys]: a [bool] or
    a [set]. *)
Inductive Policy : Type :=
| PBool (b : bool)
| PSet (s : gset Key).

(** The same as the initializer receives it: a [bool] or an iterable. *)
Inductive PolicyArg : Type :=
| ArgBool (b : bool)
| ArgIterable (l : list Key).

Record t : Type := mk {
  _filters : list (Key * FilterChain);
  allow_missing_keys : Policy;
  allow_extra_keys : Policy
}.

Definition policy (a : PolicyArg) : Policy :=
  match a with
  | ArgIterable l => PSet (list_to_set l)
  | ArgBool b => PBool b
  end.

Definition __init__
    (filter_map : list (Key * FilterChain))
    (allow_missing_keys allow_extra_keys : PolicyArg) : t :=
  mk (foldl (λ fs kc, setitem fs kc.1 kc.2) [] filter_map)
     (policy allow_missing_keys)
     (policy allow_extra_keys).

(** [key in container]: a [bool] is not a container and an unhashable key
    cannot be looked up in a [set]; both raise [TypeError]. *)
Definition py_in (key : PyVal) (container : Policy) : Outcome bool :=
  match container with
  | PBool _ => Raised TypeError
  | PSet s =>
      match hash key with
      | Some k => Ok (bool_decide (k ∈ s))
      | None => Raised TypeError
      end
  end.

(** [try: return body except TypeError: return False] *)
Definition except_TypeError_False (body : Outcome bool) : Outcome bool :=
  match body with
  | Raised TypeError => Ok false
  | other => other
  end.

Definition _missing_key_allowed (self : t) (key : PyVal) : Outcome bool :=
  match allow_missing_keys self with
  | PBool true => Ok true
  | container => except_TypeError_False (py_in key container)
  end.

Definition _extra_key_allowed (self : t) (key : PyVal) : Outcome bool :=
  match allow_extra_keys self with
  | PBool true => Ok true
  | container => except_TypeError_False (py_in key container)
  end.

Section methods.
Context `{Env}.

Definition unicodify_key (key : Key) : string :=
  match key with
  | KNone => "None"
  | _ =>
      match Unicode_apply (of_key key) with
      | Some u => u
      | None => repr (of_key key)
      end
  end.

Definition _apply_item
    (key : Key) (value : PyVal) (filter_chain : FilterChain) : M PyVal :=
  _filter value filter_chain key.

(** The body of the first loop: the value yielded for a declared key. *)
Definition iter_declared_item
    (self : t) (value : Mapping) (key : Key) (filter_chain : FilterChain)
    : M PyVal :=
  if contains value key then
    v ← getitem value key;
    _apply_item key v filter_chain
  else
    allowed ← lift (_missing_key_allowed self (of_key key));
    if allowed : bool then
      _apply_item key VNone filter_chain
    else
      _invalid_value VNone CODE_MISSING_KEY key.

Fixpoint iter_declared
    (self : t) (value : Mapping) (filters : list (Key * FilterChain))
    : M Mapping :=
  match filters with
  | [] => mret []
  | (key, filter_chain) :: rest =>
      y ← iter_declared_item self value key filter_chain;
      ys ← iter_declared self value rest;
      mret ((key, y) :: ys)
  end.

(** The body of the second loop: the pair yielded for an extra key, if
    any. *)
Definition iter_extra_item (self : t) (value : Mapping) (key : Key)
    : M (option (Key * PyVal)) :=
  allowed ← lift (_extra_key_allowed self (of_key key));
  if allowed : bool then
    v ← getitem value key;
    mret (Some (key, v))
  else
    v ← getitem value key;
    _invalid_value v CODE_EXTRA_KEY (KStr (unicodify_key key));;
    mret None.

Fixpoint iter_extra (self : t) (value : Mapping) (keys : list Key)
    : M Mapping :=
  match keys with
  | [] => mret []
  | key :: rest =>
      y ← iter_extra_item self value key;
      ys ← iter_extra self value rest;
      mret (option_list y ++ ys)
  end.

(** [set(iterkeys(value)) - set(iterkeys(self._filters))], as iterated. *)
Definition extra_keys (self : t) (value : Mapping) : list Key :=
  set_iter (list_to_set value.*1 ∖ list_to_set (_filters self).*1).

Definition iter (self : t) (value : option Mapping) : M Mapping :=
  match value with
  | None => mret []
  | Some value =>
      declared ← iter_declared self value (_filters self);
      extra ← iter_extra self value (extra_keys self value);
      mret (declared ++ extra)
  end.

(** [iter] is written for a [Mapping] (its type comment) and guards
    against [None]; [_apply] reaches it with a mapping only. *)
Definition as_Mapping (value : PyVal) : M (option Mapping) :=
  match value with
  | VDict d => mret (Some d)
  | VNone => mret None
  | _ => raise TypeError
  end.

Definition _apply (self : t) (value : PyVal) : M PyVal :=
  value ← _filter value (Type_ is_Mapping) KNone;
  failed ← has_errors;
  if failed : bool then mret VNone
  else
    value ← as_Mapping value;
    pairs ← iter self value;
    mret (VDict (OrderedDict pairs)).

End methods.
End FilterMapper.

(** ** Reading a run *)

(** [returns m a errs]: from every context, [m] raises nothing, returns
    [a] and records exactly [errs]. *)
Definition returns {A} (m : M A) (a : A) (errs : list ErrorRecord) : Prop :=
  ∀ c, m c = (Ok a, extend c errs).

(** What [m] records when it is run on its own. *)
Definition log {A} (m : M A) : list ErrorRecord := messages (m fresh).2.

(** The tri-state of a key policy as the specification words it: allow
    all, allow none, or allow the members of a set. *)
Definition permits (p : FilterMapper.Policy) (k : Key) : bool :=
  match p with
  | FilterMapper.PBool b => b
  | FilterMapper.PSet s => bool_decide (k ∈ s)
  end.

(** What a repeater puts in the place of the element [v] found at the key
    or index [k], and what it records for it. *)
Section repeater_elements.
Context `{Env}.

Definition element_value (self : FilterRepeater.t) (k : Key) (v : PyVal)
    : PyVal :=
  if FilterRepeater.admitted self k
  then (apply_chain (FilterRepeater._filter_chain self) v).1
  else placeholder.

Definition element_errors (self : FilterRepeater.t) (k : Key) (v : PyVal)
    : list ErrorRecord :=
  let u_key := KStr (FilterRepeater.unicodify_key k) in
  if FilterRepeater.admitted self k
  then under u_key <$> (apply_chain (FilterRepeater._filter_chain self) v).2
  else [mkError FilterRepeater.CODE_EXTRA_KEY v [u_key]].

End repeater_elements.

(** What a mapper yields and records for a declared key and for an extra
    key, case by case as the specification lists them. *)
Section mapper_entries.
Context `{Env}.

Definition declared_value
    (self : FilterMapper.t) (value : Mapping) (key : Key)
    (filter_chain : FilterChain) : PyVal :=
  match get value key with
  | Some v => (apply_chain filter_chain v).1
  | None =>
      if permits (FilterMapper.allow_missing_keys self) key
      then (apply_chain filter_chain VNone).1
      else placeholder
  end.

Definition declared_errors
    (self : FilterMapper.t) (value : Mapping) (key : Key)
    (filter_chain : FilterChain) : list ErrorRecord :=
  match get value key with
  | Some v => under key <$> (apply_chain filter_chain v).2
  | None =>
      if permits (FilterMapper.allow_missing_keys self) key
      then under key <$> (apply_chain filter_chain VNone).2
      else [mkError FilterMapper.CODE_MISSING_KEY VNone (segment key)]
  end.

Definition extra_entry (self : FilterMapper.t) (value : Mapping) (key : Key)
    : option (Key * PyVal) :=
  if permits (FilterMapper.allow_extra_keys self) key
  then (λ v, (key, v)) <$> get value key
  else None.

Definition extra_errors (self : FilterMapper.t) (value : Mapping) (key : Key)
    : list ErrorRecord :=
  if permits (FilterMapper.allow_extra_keys self) key then []
  else (λ v, mkError FilterMapper.CODE_EXTRA_KEY v
               [KStr (FilterMapper.unicodify_key key)])
         <$> option_list (get value key).

End mapper_entries.

(** ** A concrete environment, to run the filters in *)

Definition text_of (v : PyVal) : option string :=
  match v with
  | VInt z => Some (pretty z)
  | VStr s => Some s
  | _ => None
  end.

Definition default_env : Env :=
  Build_Env VNone text_of (λ _, "<object>") elements (λ s, reflexivity _).

(** A leaf filter that rejects [None] and lets every other value
    through. *)
Definition Required : Filter := λ v,
  match v with
  | VNone => (VNone, [mkError "empty" VNone []])
  | _ => (v, [])
  end.

(** * Properties *)

(** ** The context monad *)

Lemma extend_nil c : extend c [] = c.
Proof. destruct c as [ms b]. unfold extend; simpl. by rewrite app_nil_r, orb_false_r. Qed.

Lemma extend_app c e1 e2 : extend (extend c e1) e2 = extend c (e1 ++ e2).
Proof.
  unfold extend; simpl. rewrite <-(assoc_L (++)), <-orb_assoc. do 2 f_equal.
  by destruct e1, e2.
Qed.

Lemma bind_run {A B} (m : M A) (f : A → M B) c :
  (m ≫= f) c =
  match m c with
  | (Ok a, c') => f a c'
  | (Raised e, c') => (Raised e, c')
  end.
Proof. done. Qed.

Lemma returns_ret {A} (a : A) : returns (mret a) a [].
Proof. intros c. by rewrite extend_nil. Qed.

Lemma returns_bind {A B} (m : M A) (f : A → M B) a b e1 e2 :
  returns m a e1 → returns (f a) b e2 → returns (m ≫= f) b (e1 ++ e2).
Proof. intros Hm Hf c. by rewrite bind_run, Hm, Hf, extend_app. Qed.

Lemma returns_then {A B} (m : M A) (f : A → M B) a b e :
  returns m a e → returns (f a) b [] → returns (m ≫= f) b e.
Proof. intros Hm Hf. rewrite <-(app_nil_r e). by eapply returns_bind. Qed.

Lemma returns_after {A B} (m : M A) (f : A → M B) a b e :
  returns m a [] → returns (f a) b e → returns (m ≫= f) b e.
Proof. intros Hm Hf. by apply (returns_bind m f a b [] e). Qed.

Lemma returns_fmap {A B} (g : A → B) (m : M A) a e :
  returns m a e → returns (g <$> m) (g a) e.
Proof.
  intros Hm. apply (returns_then m (λ x, mret (g x)) a); [done | apply returns_ret].
Qed.

Lemma returns_record errs : returns (record errs) () errs.
Proof. done. Qed.

Lemma returns_lift {A} (a : A) : returns (lift (Ok a)) a [].
Proof. intros c. by rewrite extend_nil. Qed.

Lemma returns_log {A} (m : M A) a e : returns m a e → log m = e.
Proof. intros Hm. unfold log. by rewrite Hm. Qed.

(** ** The collaborators *)

Section base_facts.
Context `{Env}.

Lemma returns_invalid_value value code sub_key :
  returns (_invalid_value value code sub_key) placeholder
          [mkError code value (segment sub_key)].
Proof.
  unfold _invalid_value.
  eapply returns_then; [apply returns_record | apply returns_ret].
Qed.

Lemma returns_filter value filter_chain sub_key :
  returns (_filter value filter_chain sub_key)
          (apply_chain filter_chain value).1
          (under sub_key <$> (apply_chain filter_chain value).2).
Proof.
  unfold _filter; simpl.
  eapply returns_then; [apply returns_record | apply returns_ret].
Qed.

Lemma returns_type_pass (allowed : PyVal → bool) value :
  allowed value = true → returns (_filter value (Type_ allowed) KNone) value [].
Proof.
  intros Hv. pose proof (returns_filter value (Type_ allowed) KNone) as Hf.
  simpl in Hf. by rewrite Hv in Hf.
Qed.

Lemma returns_type_fail (allowed : PyVal → bool) value :
  allowed value = false →
  returns (_filter value (Type_ allowed) KNone) placeholder
          [mkError CODE_TYPE_MISMATCH value []].
Proof.
  intros Hv. pose proof (returns_filter value (Type_ allowed) KNone) as Hf.
  simpl in Hf. by rewrite Hv in Hf.
Qed.

End base_facts.

(** ** Ordered dicts *)

Section odict.
Context {A : Type}.
Implicit Types (d : list (Key * A)) (k : Key) (v : A).

Lemma setitem_fresh d k v : k ∉ d.*1 → setitem d k v = d ++ [(k, v)].
Proof.
  induction d as [|[k' v'] d IH]; simpl; [done|].
  rewrite not_elem_of_cons. intros [Hne Hd].
  rewrite decide_False by done. by rewrite IH.
Qed.

Lemma foldl_setitem_NoDup d (l : list (Key * A)) :
  NoDup (d ++ l).*1 → foldl (λ d kv, setitem d kv.1 kv.2) d l = d ++ l.
Proof.
  revert d. induction l as [|[k v] l IH]; intros d Hnd; simpl.
  { by rewrite app_nil_r. }
  rewrite setitem_fresh.
  - rewrite IH; rewrite <-(assoc_L (++)); done.
  - rewrite fmap_app, fmap_cons in Hnd. apply NoDup_app in Hnd as (_ & Hd & _).
    intros Hk. apply (Hd k Hk). by left.
Qed.

Lemma OrderedDict_NoDup (l : list (Key * A)) : NoDup l.*1 → OrderedDict l = l.
Proof. intros Hnd. by apply (foldl_setitem_NoDup []). Qed.

Lemma get_None d k : get d k = None ↔ k ∉ d.*1.
Proof.
  induction d as [|[k' v'] d IH]; simpl.
  - split; [intros _; apply not_elem_of_nil | done].
  - rewrite not_elem_of_cons. case_decide as Hk; subst.
    + split; [done | by intros [? _]].
    + rewrite IH. split; [by intros ?; split; [intros ->|] | by intros [_ ?]].
Qed.

Lemma get_is_Some d k : is_Some (get d k) ↔ k ∈ d.*1.
Proof.
  rewrite <-not_eq_None_Some, get_None. split; [|by auto].
  intros Hk. by destruct (decide (k ∈ d.*1)).
Qed.

Lemma get_elem_of d k v : NoDup d.*1 → (k, v) ∈ d → get d k = Some v.
Proof.
  induction d as [|[k' v'] d IH]; simpl; [by rewrite elem_of_nil|].
  rewrite NoDup_cons, elem_of_cons. intros [Hk' Hnd] [Heq | Hin].
  - inversion Heq; subst. by rewrite decide_True.
  - rewrite decide_False; [by apply IH|].
    intros ->. apply Hk'. apply list_elem_of_fmap. by exists (k, v).
Qed.

Lemma contains_true d k : contains d k = true ↔ k ∈ d.*1.
Proof. unfold contains. by rewrite bool_decide_eq_true, get_is_Some. Qed.

Lemma contains_false d k : contains d k = false ↔ get d k = None.
Proof.
  unfold contains. rewrite bool_decide_eq_false, <-not_eq_None_Some.
  split; [|by auto]. intros Hk. by destruct (get d k); [destruct Hk|].
Qed.

End odict.

(** ** [FilterRepeater] *)

Section repeater_facts.
Context `{Env}.
Import FilterRepeater.
Implicit Types (self : FilterRepeater.t) (d : Mapping) (l : list PyVal).

Lemma returns_element self k v :
  returns (if admitted self k
           then _apply_item (unicodify_key k) v (_filter_chain self)
           else _invalid_value v CODE_EXTRA_KEY (KStr (unicodify_key k)))
          (element_value self k v) (element_errors self k v).
Proof.
  unfold element_value, element_errors. destruct (admitted self k).
  - apply returns_filter.
  - apply returns_invalid_value.
Qed.

Lemma returns_iter_items self d :
  returns (iter_items self d)
    ((λ kv, (kv.1, (apply_chain (_filter_chain self) kv.2).1))
       <$> filter (λ kv, admitted self kv.1) d)
    (d ≫= λ kv, element_errors self kv.1 kv.2).
Proof.
  induction d as [|[k v] d IH]; [apply returns_ret|].
  pose proof (returns_element self k v) as Hkv.
  unfold element_value, element_errors in Hkv.
  rewrite filter_cons. cbn [iter_items mbind list_bind fst snd].
  unfold element_errors at 1.
  destruct (admitted self k) eqn:Hk.
  - rewrite decide_True by exact I. eapply returns_bind; [exact Hkv|].
    eapply returns_then; [exact IH | apply returns_ret].
  - rewrite decide_False by exact id. eapply returns_bind; [exact Hkv | exact IH].
Qed.

Lemma returns_iter_enumerate self l i :
  returns (iter_enumerate self i l)
    (imap (λ j v, element_value self (KInt (i + Z.of_nat j)) v) l)
    (mjoin (imap (λ j v, element_errors self (KInt (i + Z.of_nat j)) v) l)).
Proof.
  revert i. induction l as [|v l IH]; intros i; [apply returns_ret|].
  cbn [iter_enumerate imap mjoin list_join]. rewrite Z.add_0_r.
  eapply returns_bind; [apply returns_element|].
  eapply returns_then; [|apply returns_ret].
  specialize (IH (i + 1)%Z).
  rewrite (imap_ext _ (λ j v, element_value self (KInt (i + 1 + Z.of_nat j)) v) l),
          (imap_ext (_ ∘ S)
             (λ j v, element_errors self (KInt (i + 1 + Z.of_nat j)) v) l);
    [exact IH | |]; intros j x _; simpl; do 2 f_equal; lia.
Qed.

Lemma returns_apply_sequence self v l c :
  is_Mapping v = false → elements_of v = Some l → _has_errors c = false →
  _apply self v c =
    (Ok (VList (imap (λ i x, element_value self (KInt (Z.of_nat i)) x) l)),
     extend c (mjoin (imap (λ i x, element_errors self (KInt (Z.of_nat i)) x) l))).
Proof.
  intros Hm Hl Hc. unfold _apply.
  assert (is_Iterable v = true) as Hit by (by destruct v).
  rewrite bind_run, (returns_type_pass is_Iterable v Hit c), extend_nil.
  rewrite bind_run. unfold has_errors at 1. rewrite Hc.
  assert (iter self v = Items <$> iter_enumerate self 0 l) as ->.
  { destruct v; try done; simpl in *; by inversion Hl. }
  pose proof (returns_fmap result_type _ _ _
    (returns_fmap Items _ _ _ (returns_iter_enumerate self l 0))) as Hr.
  by rewrite Hr.
Qed.

Lemma returns_apply_mapping self d c :
  _has_errors c = false →
  _apply self (VDict d) c =
    (Ok (VDict (OrderedDict
       ((λ kv, (kv.1, (apply_chain (_filter_chain self) kv.2).1))
          <$> filter (λ kv, admitted self kv.1) d))),
     extend c (d ≫= λ kv, element_errors self kv.1 kv.2)).
Proof.
  intros Hc. unfold _apply.
  rewrite bind_run, (returns_type_pass is_Iterable (VDict d) eq_refl c), extend_nil.
  rewrite bind_run. unfold has_errors at 1. rewrite Hc.
  pose proof (returns_fmap result_type _ _ _
    (returns_fmap Pairs _ _ _ (returns_iter_items self d))) as Hr.
  by rewrite Hr.
Qed.

End repeater_facts.

(** ** [FilterMapper] *)

Section mapper_facts.
Context `{Env}.
Import FilterMapper.
Implicit Types (self : FilterMapper.t) (d : Mapping) (k key : Key).

Lemma hash_of_key k : hash (of_key k) = Some k.
Proof. by destruct k. Qed.

Lemma missing_key_allowed_permits self k :
  _missing_key_allowed self (of_key k) = Ok (permits (allow_missing_keys self) k).
Proof.
  unfold _missing_key_allowed, py_in.
  destruct (allow_missing_keys self) as [[]|s]; simpl; [done..|].
  by rewrite hash_of_key.
Qed.

Lemma extra_key_allowed_permits self k :
  _extra_key_allowed self (of_key k) = Ok (permits (allow_extra_keys self) k).
Proof.
  unfold _extra_key_allowed, py_in.
  destruct (allow_extra_keys self) as [[]|s]; simpl; [done..|].
  by rewrite hash_of_key.
Qed.

Lemma returns_getitem d k v : get d k = Some v → returns (getitem d k) v [].
Proof. intros Hg. unfold getitem. rewrite Hg. apply returns_ret. Qed.

Lemma returns_declared_item self d key filter_chain :
  returns (iter_declared_item self d key filter_chain)
          (declared_value self d key filter_chain)
          (declared_errors self d key filter_chain).
Proof.
  unfold iter_declared_item, declared_value, declared_errors.
  destruct (get d key) as [v|] eqn:Hg.
  - assert (contains d key = true) as ->.
    { apply contains_true, get_is_Some. by rewrite Hg. }
    eapply returns_after; [by apply returns_getitem | apply returns_filter].
  - assert (contains d key = false) as -> by by apply contains_false.
    rewrite missing_key_allowed_permits.
    destruct (permits (allow_missing_keys self) key).
    + eapply returns_after; [apply returns_lift | apply returns_filter].
    + eapply returns_after; [apply returns_lift | apply returns_invalid_value].
Qed.

Lemma returns_iter_declared self d (fs : list (Key * FilterChain)) :
  returns (iter_declared self d fs)
    ((λ kc, (kc.1, declared_value self d kc.1 kc.2)) <$> fs)
    (fs ≫= λ kc, declared_errors self d kc.1 kc.2).
Proof.
  induction fs as [|[k ch] fs IH]; [apply returns_ret|].
  cbn [iter_declared fmap list_fmap mbind list_bind fst snd].
  eapply returns_bind; [apply returns_declared_item|].
  eapply returns_then; [exact IH | apply returns_ret].
Qed.

Lemma returns_extra_item self d key :
  key ∈ d.*1 →
  returns (iter_extra_item self d key)
          (extra_entry self d key) (extra_errors self d key).
Proof.
  intros [v Hg]%get_is_Some.
  unfold iter_extra_item, extra_entry, extra_errors.
  rewrite extra_key_allowed_permits, Hg.
  destruct (permits (allow_extra_keys self) key); simpl.
  - eapply returns_after; [apply returns_lift|].
    eapply returns_then; [by apply returns_getitem | apply returns_ret].
  - eapply returns_after; [apply returns_lift|].
    eapply returns_after; [by apply returns_getitem|].
    eapply returns_then; [apply returns_invalid_value | apply returns_ret].
Qed.

Lemma returns_iter_extra self d (keys : list Key) :
  (∀ k, k ∈ keys → k ∈ d.*1) →
  returns (iter_extra self d keys)
    (omap (extra_entry self d) keys) (keys ≫= extra_errors self d).
Proof.
  induction keys as [|k keys IH]; intros Hin; [apply returns_ret|].
  cbn [iter_extra omap list_omap mbind list_bind].
  eapply returns_bind; [apply returns_extra_item, Hin; by left|].
  eapply returns_then; [apply IH; intros; apply Hin; by right|].
  destruct (extra_entry self d k); apply returns_ret.
Qed.

Lemma elem_of_extra_keys self d k :
  k ∈ extra_keys self d ↔ k ∈ d.*1 ∧ k ∉ (_filters self).*1.
Proof.
  unfold extra_keys. rewrite (set_iter_perm _), elem_of_elements.
  by rewrite elem_of_difference, !elem_of_list_to_set.
Qed.

Lemma NoDup_extra_keys self d : NoDup (extra_keys self d).
Proof. unfold extra_keys. rewrite (set_iter_perm _). apply NoDup_elements. Qed.

Lemma filters_init (fm : list (Key * FilterChain)) am ae :
  NoDup fm.*1 → _filters (__init__ fm am ae) = fm.
Proof. intros Hnd. by apply (OrderedDict_NoDup fm). Qed.

Lemma declared_keys self d (fs : list (Key * FilterChain)) :
  ((λ kc, (kc.1, declared_value self d kc.1 kc.2)) <$> fs).*1 = fs.*1.
Proof. rewrite <-list_fmap_compose. by apply list_fmap_ext. Qed.

Lemma extra_entry_keys self d (keys : list Key) :
  (∀ k, k ∈ keys → k ∈ d.*1) →
  (omap (extra_entry self d) keys).*1
  = filter (λ k, permits (allow_extra_keys self) k) keys.
Proof.
  induction keys as [|k keys IH]; intros Hin; [done|].
  rewrite filter_cons. cbn [omap list_omap]. unfold extra_entry at 1.
  assert (is_Some (get d k)) as [v ->] by (apply get_is_Some, Hin; by left).
  destruct (permits (allow_extra_keys self) k); simpl.
  - f_equal. apply IH. intros; apply Hin; by right.
  - apply IH. intros; apply Hin; by right.
Qed.

Lemma elem_of_admitted_extra self d k :
  k ∈ filter (λ k, permits (allow_extra_keys self) k) (extra_keys self d)
  ↔ k ∈ d.*1 ∧ (k ∉ (_filters self).*1)
    ∧ _extra_key_allowed self (of_key k) = Ok true.
Proof.
  rewrite list_elem_of_filter, elem_of_extra_keys, extra_key_allowed_permits.
  destruct (permits (allow_extra_keys self) k); simpl.
  - split; [by intros [_ [? ?]] | by intros (? & ? & _)].
  - split; [by intros [[] _] | by intros (_ & _ & [=])].
Qed.

Lemma NoDup_output_keys self d :
  NoDup (_filters self).*1 →
  NoDup ((_filters self).*1
         ++ filter (λ k, permits (allow_extra_keys self) k) (extra_keys self d)).
Proof.
  intros Hnd. apply NoDup_app. split_and!; [done| |].
  - intros k Hk Hk'. by apply elem_of_admitted_extra in Hk' as (_ & Hk' & _).
  - apply NoDup_filter, NoDup_extra_keys.
Qed.

(** The whole application to a mapping, in closed form. *)
Lemma mapper_apply_run self d c :
  NoDup (_filters self).*1 → _has_errors c = false →
  _apply self (VDict d) c =
    (Ok (VDict (((λ kc, (kc.1, declared_value self d kc.1 kc.2)) <$> _filters self)
                ++ omap (extra_entry self d) (extra_keys self d))),
     extend c ((_filters self ≫= λ kc, declared_errors self d kc.1 kc.2)
               ++ (extra_keys self d ≫= extra_errors self d))).
Proof.
  intros Hnd Hc. unfold _apply.
  rewrite bind_run, (returns_type_pass is_Mapping (VDict d) eq_refl c), extend_nil.
  rewrite bind_run. unfold has_errors at 1. rewrite Hc.
  cbn [as_Mapping]. rewrite bind_run. unfold mret at 1, M_ret at 1.
  assert (∀ k, k ∈ extra_keys self d → k ∈ d.*1) as Hin.
  { intros k Hk. by apply elem_of_extra_keys in Hk as [? _]. }
  pose proof (returns_bind _ (λ declared, extra ← iter_extra self d (extra_keys self d);
                                          mret (declared ++ extra)) _ _ _ _
    (returns_iter_declared self d (_filters self))
    (returns_then _ (λ extra, mret (_ ++ extra)) _ _ _
       (returns_iter_extra self d _ Hin) (returns_ret _))) as Hr.
  rewrite bind_run. unfold iter. rewrite Hr. unfold mret, M_ret.
  rewrite OrderedDict_NoDup; [done|].
  rewrite fmap_app, declared_keys, extra_entry_keys by done.
  by apply NoDup_output_keys.
Qed.

End mapper_facts.

(** ** What [FilterRepeater] guarantees *)

Section repeater_claims.
Context `{Env}.
Import FilterRepeater.
Implicit Types (self : FilterRepeater.t) (d : Mapping) (l : list PyVal).

Lemma filter_keys (P : Key → bool) d :
  (filter (λ kv, P kv.1) d).*1 = filter (λ k, P k) d.*1.
Proof.
  induction d as [|[k v] d IH]; [done|].
  rewrite fmap_cons, !filter_cons. simpl.
  destruct (P k); simpl; [f_equal|]; exact IH.
Qed.

Lemma admitted_empty filter_chain k :
  admitted (__init__ filter_chain (Some [])) k = false.
Proof. unfold admitted; simpl. apply bool_decide_eq_false, not_elem_of_empty. Qed.

(** C5. Applied to a sequence that is not a mapping, a repeater returns a
    list with exactly one element per input element, in input order: at an
    admitted index the result of the filter chain on the element, at a
    restricted-out index the invalid-value placeholder, together with one
    'unexpected' error tagged with the stringified index.  When no index is
    restricted out, the output is the input mapped through the chain, so
    its order is the input's. *)
Theorem repeater_sequence_elements self v l c :
  is_Mapping v = false → elements_of v = Some l → _has_errors c = false →
  ∃ out errs,
    _apply self v c = (Ok (VList out), extend c errs) ∧
    length out = length l ∧
    errs = mjoin (imap (λ i x, element_errors self (KInt (Z.of_nat i)) x) l) ∧
    (∀ i x, l !! i = Some x →
       let k := KInt (Z.of_nat i) in
       if admitted self k
       then out !! i = Some (apply_chain (_filter_chain self) x).1 ∧
            element_errors self k x
            = under (KStr (unicodify_key k))
                <$> (apply_chain (_filter_chain self) x).2
       else out !! i = Some placeholder ∧
            element_errors self k x
            = [mkError CODE_EXTRA_KEY x [KStr (unicodify_key k)]]) ∧
    ((∀ i, (i < length l)%nat → admitted self (KInt (Z.of_nat i)) = true) →
     out = (λ x, (apply_chain (_filter_chain self) x).1) <$> l).
Proof.
  intros Hm Hl Hc. eexists _, _. split; [by apply returns_apply_sequence|].
  split; [apply length_imap|]. split; [done|]. split.
  - intros i x Hi k. rewrite list_lookup_imap, Hi. simpl.
    unfold element_value, element_errors. fold k. by destruct (admitted self k).
  - intros Hall. rewrite <-imap_const. apply imap_ext. intros i x Hi.
    unfold element_value. rewrite Hall; [done|]. by eapply lookup_lt_Some.
Qed.

(** C6. Applied to a mapping, a repeater keeps every admitted key (no
    restriction, or a restriction set that contains it) under the key
    itself, not its stringified form, in the relative order of the input
    and with the chain applied to its value; a key that the restriction
    set does not admit gets no output entry and one 'unexpected' error
    tagged with the stringified key. *)
Theorem repeater_mapping_entries self d c :
  NoDup d.*1 → _has_errors c = false →
  ∃ out errs,
    _apply self (VDict d) c = (Ok (VDict out), extend c errs) ∧
    out.*1 = filter (λ k, admitted self k) d.*1 ∧
    errs = (d ≫= λ kv, element_errors self kv.1 kv.2) ∧
    (∀ k v, (k, v) ∈ d →
       if admitted self k
       then (restrict_keys self = None ∨ ∃ s, restrict_keys self = Some s ∧ k ∈ s) ∧
            get out k = Some (apply_chain (_filter_chain self) v).1 ∧
            element_errors self k v
            = under (KStr (unicodify_key k))
                <$> (apply_chain (_filter_chain self) v).2
       else (∃ s, restrict_keys self = Some s ∧ k ∉ s) ∧
            (k ∉ out.*1) ∧
            element_errors self k v
            = [mkError CODE_EXTRA_KEY v [KStr (unicodify_key k)]]).
Proof.
  intros Hnd Hc.
  set (out := (λ kv : Key * PyVal, (kv.1, (apply_chain (_filter_chain self) kv.2).1))
                <$> filter (λ kv, admitted self kv.1) d).
  assert (out.*1 = filter (λ k, admitted self k) d.*1) as Hkeys.
  { unfold out. rewrite <-list_fmap_compose, <-filter_keys. by apply list_fmap_ext. }
  assert (NoDup out.*1) as Hout by (rewrite Hkeys; by apply NoDup_filter).
  exists out, (d ≫= λ kv, element_errors self kv.1 kv.2).
  split; [|split; [done|split; [done|]]].
  { rewrite returns_apply_mapping by done. fold out. by rewrite OrderedDict_NoDup. }
  intros k v Hkv. unfold element_errors.
  destruct (admitted self k) eqn:Hk.
  - split; [|split; [|done]].
    + unfold admitted in Hk. destruct (restrict_keys self) as [s|]; [|by left].
      right. exists s. split; [done|]. by apply bool_decide_eq_true in Hk.
    + apply get_elem_of; [done|]. unfold out.
      apply (list_elem_of_fmap_2'
               (λ kv : Key * PyVal, (kv.1, (apply_chain (_filter_chain self) kv.2).1))
               _ (k, v)); [|done].
      apply list_elem_of_filter. split; [|done]. simpl. by rewrite Hk.
  - split; [|split; [|done]].
    + unfold admitted in Hk. destruct (restrict_keys self) as [s|]; [|done].
      exists s. split; [done|]. by apply bool_decide_eq_false in Hk.
    + rewrite Hkeys, list_elem_of_filter. intros [Hk' _]. by rewrite Hk in Hk'.
Qed.

(** C7. A repeater constructed with an empty [restrict_keys] rejects every
    key and index: a mapping yields an output without entries, a sequence
    an output of invalid-value placeholders only, and in both cases one
    'unexpected' error is recorded per input element. *)
Theorem repeater_empty_restriction filter_chain d v l c :
  is_Mapping v = false → elements_of v = Some l → _has_errors c = false →
  let self := __init__ filter_chain (Some []) in
  (∀ k, admitted self k = false) ∧
  _apply self (VDict d) c
  = (Ok (VDict []),
     extend c ((λ kv, mkError CODE_EXTRA_KEY kv.2 [KStr (unicodify_key kv.1)])
                 <$> d)) ∧
  _apply self v c
  = (Ok (VList (replicate (length l) placeholder)),
     extend c (imap (λ i x, mkError CODE_EXTRA_KEY x
                              [KStr (unicodify_key (KInt (Z.of_nat i)))]) l)).
Proof.
  intros Hm Hl Hc self.
  assert (∀ k, admitted self k = false) as Hrej by apply admitted_empty.
  split; [done|]. split.
  - rewrite returns_apply_mapping by done.
    assert (filter (λ kv : Key * PyVal, admitted self kv.1) d = []) as ->.
    { induction d as [|[k v'] d IH]; [done|].
      rewrite filter_cons. simpl. by rewrite Hrej. }
    assert ((d ≫= λ kv, element_errors self kv.1 kv.2)
            = (λ kv, mkError CODE_EXTRA_KEY kv.2 [KStr (unicodify_key kv.1)]) <$> d)
      as ->; [|done].
    induction d as [|[k v'] d IH]; [done|].
    cbn [mbind list_bind fmap list_fmap fst snd]. rewrite IH.
    unfold element_errors. by rewrite Hrej.
  - rewrite (returns_apply_sequence self v l) by done.
    assert (imap (λ i x, element_value self (KInt (Z.of_nat i)) x) l
            = replicate (length l) placeholder) as ->.
    { apply list_eq. intros i.
      rewrite list_lookup_imap. unfold element_value.
      destruct (l !! i) as [x|] eqn:Hi; simpl.
      - rewrite Hrej. symmetry. apply lookup_replicate_2. by eapply lookup_lt_Some.
      - symmetry. apply lookup_replicate_None. by apply lookup_ge_None. }
    assert (∀ (f : nat → Z),
              mjoin (imap (λ i x, element_errors self (KInt (f i)) x) l)
              = imap (λ i x, mkError CODE_EXTRA_KEY x
                               [KStr (unicodify_key (KInt (f i)))]) l) as ->;
      [|done].
    clear Hl. induction l as [|x l IH]; intros f; [done|].
    cbn [imap mjoin list_join]. specialize (IH (f ∘ S)).
    unfold element_errors at 1. rewrite Hrej.
    cbn [app]. f_equal. exact IH.
Qed.

End repeater_claims.

(** ** What [FilterMapper] guarantees *)

Section mapper_claims.
Context `{Env}.
Import FilterMapper.
Implicit Types (self : FilterMapper.t) (d : Mapping) (k key : Key).
Implicit Types (fm : list (Key * FilterChain)) (am ae : PolicyArg).

Lemma bind_ext_in {A B} (f g : A → list B) (l : list A) :
  (∀ x, x ∈ l → f x = g x) → l ≫= f = l ≫= g.
Proof.
  induction l as [|x l IH]; intros Hfg; [done|].
  cbn [mbind list_bind]. rewrite Hfg by by left.
  f_equal. apply IH. intros; apply Hfg; by right.
Qed.

Lemma extra_keys_nil self : extra_keys self [] = [].
Proof.
  apply elem_of_nil_inv. intros k [Hk _]%elem_of_extra_keys.
  by apply elem_of_nil in Hk.
Qed.

(** The whole application, with the recorded errors listed step by step:
    first what each declared key records, in schema order, then what each
    extra key records. *)
Lemma mapper_apply_log self d c :
  NoDup (_filters self).*1 → _has_errors c = false →
  _apply self (VDict d) c =
    (Ok (VDict (((λ kc, (kc.1, declared_value self d kc.1 kc.2)) <$> _filters self)
                ++ omap (extra_entry self d) (extra_keys self d))),
     extend c ((_filters self ≫= λ kc, log (iter_declared_item self d kc.1 kc.2))
               ++ (extra_keys self d ≫= λ k, log (iter_extra_item self d k)))).
Proof.
  intros Hnd Hc. rewrite mapper_apply_run by done. do 3 f_equal.
  - apply bind_ext_in. intros [k ch] _. symmetry.
    eapply returns_log, returns_declared_item.
  - apply bind_ext_in. intros k [Hk _]%elem_of_extra_keys. symmetry.
    by eapply returns_log, returns_extra_item.
Qed.

Lemma get_declared self d fm key chain extra :
  NoDup fm.*1 → (key, chain) ∈ fm →
  get (((λ kc, (kc.1, declared_value self d kc.1 kc.2)) <$> fm) ++ extra) key
  = Some (declared_value self d key chain).
Proof.
  intros Hnd. induction fm as [|[k ch] fm IH]; [by rewrite elem_of_nil|].
  rewrite fmap_cons in Hnd. apply NoDup_cons in Hnd as [Hk Hnd].
  rewrite elem_of_cons. simpl. intros [[= <- <-] | Hin].
  - by rewrite decide_True.
  - rewrite decide_False; [by apply IH|].
    intros ->. apply Hk, list_elem_of_fmap. by exists (key, chain).
Qed.

(** C1. For a mapper and a mapping input, the keys of the output are the
    schema keys in declared order followed by the admitted extra keys:
    every declared key is there, whatever the input holds for it, and the
    admitted extra keys (the input keys outside the schema that the
    extra-key policy allows) all come after the declared ones. *)
Theorem mapper_output_key_order fm am ae d c :
  NoDup fm.*1 → _has_errors c = false →
  let self := __init__ fm am ae in
  ∃ out c' admitted_extra,
    _apply self (VDict d) c = (Ok (VDict out), c') ∧
    out.*1 = fm.*1 ++ admitted_extra ∧
    NoDup out.*1 ∧
    (∀ k, k ∈ fm.*1 → k ∈ out.*1) ∧
    (∀ k, k ∈ admitted_extra
          ↔ k ∈ d.*1 ∧ (k ∉ fm.*1) ∧ _extra_key_allowed self (of_key k) = Ok true).
Proof.
  intros Hnd Hc self.
  assert (_filters self = fm) as Hfs by by apply filters_init.
  assert (NoDup (_filters self).*1) as Hnd' by by rewrite Hfs.
  eexists _, _, (filter (λ k, permits (allow_extra_keys self) k) (extra_keys self d)).
  split; [by apply mapper_apply_run|].
  assert (∀ k, k ∈ extra_keys self d → k ∈ d.*1) as Hin.
  { intros k Hk. by apply elem_of_extra_keys in Hk as [? _]. }
  rewrite fmap_app, declared_keys, extra_entry_keys, Hfs by done.
  split; [done|]. split; [rewrite <-Hfs at 1; by apply NoDup_output_keys|].
  split; [intros k Hk; apply elem_of_app; by left|].
  intros k. by rewrite elem_of_admitted_extra, Hfs.
Qed.

(** C2. When a declared key is absent from the input and the missing-key
    policy does not permit its omission, the mapper records exactly one
    'missing' error tagged with that key, and the output still holds the
    key, bound to the invalid-value placeholder.  In particular the schema
    {a: identity} with no missing key allowed turns {} into
    {a: <invalid>} with one 'missing' error tagged "a". *)
Theorem mapper_missing_key_rejected fm am ae d c key chain :
  NoDup fm.*1 → _has_errors c = false →
  (key, chain) ∈ fm → key ∉ d.*1 →
  _missing_key_allowed (__init__ fm am ae) (of_key key) = Ok false →
  let self := __init__ fm am ae in
  returns (iter_declared_item self d key chain) placeholder
          [mkError CODE_MISSING_KEY VNone (segment key)] ∧
  (∃ out,
     _apply self (VDict d) c =
       (Ok (VDict out),
        extend c ((fm ≫= λ kc, log (iter_declared_item self d kc.1 kc.2))
                  ++ (extra_keys self d ≫= λ k, log (iter_extra_item self d k)))) ∧
     get out key = Some placeholder) ∧
  _apply (__init__ [(KStr "a", None)] (ArgBool false) ae) (VDict []) fresh
  = (Ok (VDict [(KStr "a", placeholder)]),
     mkCtx [mkError CODE_MISSING_KEY VNone [KStr "a"]] true).
Proof.
  intros Hnd Hc Hin Habs Hpol self.
  assert (_filters self = fm) as Hfs by by apply filters_init.
  assert (get d key = None) as Hg by by apply get_None.
  assert (permits (allow_missing_keys self) key = false) as Hp.
  { pose proof (missing_key_allowed_permits self key) as E.
    unfold self in E. rewrite Hpol in E. by injection E. }
  clear Hpol.
  pose proof (returns_declared_item self d key chain) as Hstep.
  unfold declared_value, declared_errors in Hstep.
  rewrite Hg, Hp in Hstep.
  split; [done|]. split.
  - pose proof (mapper_apply_log self d c) as Hrun.
    rewrite Hfs in Hrun. eexists. split; [by apply Hrun|].
    rewrite (get_declared self d fm key chain) by done.
    unfold declared_value. by rewrite Hg, Hp.
  - rewrite mapper_apply_run; [|apply NoDup_singleton|done].
    by rewrite extra_keys_nil.
Qed.

(** C3, as the code has it.  When a declared key is absent from the input
    and the missing-key policy permits its omission ([True], or a set that
    contains the key), the key's chain is applied to [None] and the pair
    of the key and the chain's result is put in the output.  The mapper
    records no 'missing' error: what is recorded for the key is exactly
    what the chain records on [None].  In particular the schema
    {a: identity} with every missing key allowed turns {} into {a: None}
    with no error. *)
Theorem mapper_missing_key_permitted fm am ae d c key chain :
  NoDup fm.*1 → _has_errors c = false →
  (key, chain) ∈ fm → key ∉ d.*1 →
  am = ArgBool true ∨ (∃ ks, am = ArgIterable ks ∧ key ∈ ks) →
  let self := __init__ fm am ae in
  _missing_key_allowed self (of_key key) = Ok true ∧
  returns (iter_declared_item self d key chain)
          (apply_chain chain VNone).1
          (under key <$> (apply_chain chain VNone).2) ∧
  (∃ out,
     _apply self (VDict d) c =
       (Ok (VDict out),
        extend c ((fm ≫= λ kc, log (iter_declared_item self d kc.1 kc.2))
                  ++ (extra_keys self d ≫= λ k, log (iter_extra_item self d k)))) ∧
     get out key = Some (apply_chain chain VNone).1) ∧
  _apply (__init__ [(KStr "a", None)] (ArgBool true) ae) (VDict []) fresh
  = (Ok (VDict [(KStr "a", VNone)]), fresh).
Proof.
  intros Hnd Hc Hin Habs Ham self.
  assert (_filters self = fm) as Hfs by by apply filters_init.
  assert (get d key = None) as Hg by by apply get_None.
  assert (permits (allow_missing_keys self) key = true) as Hpol.
  { destruct Ham as [-> | (ks & -> & Hk)]; [done|]. simpl.
    by apply bool_decide_eq_true, elem_of_list_to_set. }
  pose proof (returns_declared_item self d key chain) as Hstep.
  unfold declared_value, declared_errors in Hstep.
  rewrite Hg, Hpol in Hstep.
  split; [by rewrite missing_key_allowed_permits, Hpol|].
  split; [done|]. split.
  - pose proof (mapper_apply_log self d c) as Hrun.
    rewrite Hfs in Hrun. eexists. split; [by apply Hrun|].
    rewrite (get_declared self d fm key chain) by done.
    unfold declared_value. by rewrite Hg, Hpol.
  - rewrite mapper_apply_run; [|apply NoDup_singleton|done].
    by rewrite extra_keys_nil.
Qed.

(** C4. An input key outside the schema is handled after all declared
    keys.  When the extra-key policy permits it, its value goes into the
    output unchanged, under the same key and through no filter chain;
    otherwise exactly one 'unexpected' error tagged with the stringified
    key is recorded and the output has no entry for the key. *)
Theorem mapper_extra_keys fm am ae d c key v :
  NoDup fm.*1 → _has_errors c = false →
  get d key = Some v → key ∉ fm.*1 →
  let self := __init__ fm am ae in
  ∃ declared extra errs_declared errs_extra,
    returns (iter_declared self d fm) declared errs_declared ∧
    returns (iter_extra self d (extra_keys self d)) extra errs_extra ∧
    _apply self (VDict d) c
    = (Ok (VDict (declared ++ extra)), extend c (errs_declared ++ errs_extra)) ∧
    declared.*1 = fm.*1 ∧
    key ∈ extra_keys self d ∧
    errs_extra = (extra_keys self d ≫= λ k, log (iter_extra_item self d k)) ∧
    match _extra_key_allowed self (of_key key) with
    | Ok true =>
        returns (iter_extra_item self d key) (Some (key, v)) [] ∧
        get (declared ++ extra) key = Some v
    | Ok false =>
        returns (iter_extra_item self d key) None
                [mkError CODE_EXTRA_KEY v [KStr (unicodify_key key)]] ∧
        key ∉ (declared ++ extra).*1
    | Raised _ => False
    end.
Proof.
  intros Hnd Hc Hg Hkey self.
  assert (_filters self = fm) as Hfs by by apply filters_init.
  assert (NoDup (_filters self).*1) as Hnd' by by rewrite Hfs.
  assert (key ∈ d.*1) as Hd by (apply get_is_Some; by rewrite Hg).
  assert (∀ k, k ∈ extra_keys self d → k ∈ d.*1) as Hin.
  { intros k Hk. by apply elem_of_extra_keys in Hk as [? _]. }
  assert (key ∈ extra_keys self d) as Hex.
  { apply elem_of_extra_keys. by rewrite Hfs. }
  pose proof (mapper_apply_run self d c Hnd' Hc) as Hrun.
  pose proof (returns_iter_declared self d fm) as Hdecl.
  pose proof (returns_iter_extra self d _ Hin) as Hextra.
  pose proof (returns_extra_item self d key Hd) as Hstep.
  rewrite Hfs in Hrun.
  set (declared := (λ kc : Key * FilterChain,
                      (kc.1, declared_value self d kc.1 kc.2)) <$> fm) in *.
  set (extra := omap (extra_entry self d) (extra_keys self d)) in *.
  assert ((declared ++ extra).*1
          = (_filters self).*1
            ++ filter (λ k, permits (allow_extra_keys self) k) (extra_keys self d))
    as Hkeys.
  { unfold declared, extra.
    by rewrite fmap_app, declared_keys, extra_entry_keys, Hfs by done. }
  eexists declared, extra, _, _.
  split; [exact Hdecl|]. split; [exact Hextra|]. split; [exact Hrun|].
  split; [apply declared_keys|]. split; [done|]. split.
  { apply bind_ext_in. intros k [Hk _]%elem_of_extra_keys. symmetry.
    by eapply returns_log, returns_extra_item. }
  rewrite extra_key_allowed_permits.
  unfold extra_entry, extra_errors in Hstep. rewrite Hg in Hstep.
  destruct (permits (allow_extra_keys self) key) eqn:Hp; simpl in Hstep.
  - split; [done|]. apply get_elem_of.
    + rewrite Hkeys. by apply NoDup_output_keys.
    + apply elem_of_app. right. apply list_elem_of_omap. exists key.
      split; [done|]. unfold extra_entry. by rewrite Hp, Hg.
  - split; [done|]. rewrite Hkeys, elem_of_app, Hfs, list_elem_of_filter.
    intros [? | [Hp' _]]; [done|]. by rewrite Hp in Hp'.
Qed.

(** C10. The two kinds of key error of a mapper are tagged differently:
    the 'missing' error of an absent required key carries the key itself
    as its sub-key, the 'unexpected' error of a rejected extra key carries
    the stringified key ([unicodify_key]); for one and the same key that
    is not a text, the two tags differ. *)
Theorem mapper_error_tags (self1 self2 : FilterMapper.t) d1 d2 key chain v :
  (∀ s, key ≠ KStr s) →
  key ∉ d1.*1 → _missing_key_allowed self1 (of_key key) = Ok false →
  get d2 key = Some v → _extra_key_allowed self2 (of_key key) = Ok false →
  ∃ e_missing e_extra,
    log (iter_declared_item self1 d1 key chain) = [e_missing] ∧
    log (iter_extra_item self2 d2 key) = [e_extra] ∧
    reason e_missing = CODE_MISSING_KEY ∧
    path e_missing = segment key ∧
    reason e_extra = CODE_EXTRA_KEY ∧
    path e_extra = segment (KStr (unicodify_key key)) ∧
    path e_missing ≠ path e_extra.
Proof.
  intros Hns Habs Hmiss Hg Hextra.
  rewrite missing_key_allowed_permits in Hmiss. injection Hmiss as Hmiss.
  rewrite extra_key_allowed_permits in Hextra. injection Hextra as Hextra.
  assert (get d1 key = None) as Hg1 by by apply get_None.
  assert (key ∈ d2.*1) as Hd2 by (apply get_is_Some; by rewrite Hg).
  pose proof (returns_log _ _ _ (returns_declared_item self1 d1 key chain)) as H1.
  pose proof (returns_log _ _ _ (returns_extra_item self2 d2 key Hd2)) as H2.
  unfold declared_errors in H1. rewrite Hg1, Hmiss in H1.
  unfold extra_errors in H2. rewrite Hg, Hextra in H2. simpl in H2.
  eexists _, _. split; [exact H1|]. split; [exact H2|].
  split; [done|]. split; [done|]. split; [done|]. split; [done|].
  simpl. destruct key; simpl; [done| |]; intros [=]. by eapply Hns.
Qed.

End mapper_claims.

(** ** What both filters guarantee *)

Section shared_claims.
Context `{Env}.

Lemma has_errors_extend_cons c e errs : _has_errors (extend c (e :: errs)) = true.
Proof. unfold extend; simpl. apply orb_true_r. Qed.

(** C8. A repeater applied to a value that is not iterable, and a mapper
    applied to a value that is not a mapping, record a type-mismatch
    error against the current path and return [None]; nothing is raised. *)
Theorem non_container_rejected
    (repeater : FilterRepeater.t) (mapper : FilterMapper.t) v w c :
  is_Iterable v = false → is_Mapping w = false →
  FilterRepeater._apply repeater v c
  = (Ok VNone, extend c [mkError CODE_TYPE_MISMATCH v []]) ∧
  FilterMapper._apply mapper w c
  = (Ok VNone, extend c [mkError CODE_TYPE_MISMATCH w []]).
Proof.
  intros Hv Hw. split.
  - unfold FilterRepeater._apply.
    rewrite bind_run, (returns_type_fail is_Iterable v Hv c), bind_run.
    unfold has_errors at 1. by rewrite has_errors_extend_cons.
  - unfold FilterMapper._apply.
    rewrite bind_run, (returns_type_fail is_Mapping w Hw c), bind_run.
    unfold has_errors at 1. by rewrite has_errors_extend_cons.
Qed.

End shared_claims.

Section permission_checks.
Import FilterMapper.

(** C9. The two permission checks of a mapper never raise, whatever the
    key: under the policy [True] they answer that the key is permitted,
    and when the membership test in a policy set raises [TypeError], as it
    does for an unhashable key, they answer that it is not. *)
Theorem key_permission_checks_total (self : FilterMapper.t) (key : PyVal) :
  (∃ b, _missing_key_allowed self key = Ok b) ∧
  (∃ b, _extra_key_allowed self key = Ok b) ∧
  (allow_missing_keys self = PBool true → _missing_key_allowed self key = Ok true) ∧
  (allow_extra_keys self = PBool true → _extra_key_allowed self key = Ok true) ∧
  (∀ s, allow_missing_keys self = PSet s → py_in key (PSet s) = Raised TypeError →
        _missing_key_allowed self key = Ok false) ∧
  (∀ s, allow_extra_keys self = PSet s → py_in key (PSet s) = Raised TypeError →
        _extra_key_allowed self key = Ok false) ∧
  (∀ s, hash key = None → py_in key (PSet s) = Raised TypeError).
Proof.
  unfold _missing_key_allowed, _extra_key_allowed.
  split_and!.
  - destruct (allow_missing_keys self) as [[]|s]; simpl; eauto.
    destruct (hash key); simpl; eauto.
  - destruct (allow_extra_keys self) as [[]|s]; simpl; eauto.
    destruct (hash key); simpl; eauto.
  - by intros ->.
  - by intros ->.
  - intros s -> Hraise. by rewrite Hraise.
  - intros s -> Hraise. by rewrite Hraise.
  - intros s Hk. simpl. by rewrite Hk.
Qed.

End permission_checks.

(** ** Concrete runs *)

(** The statements above, applied to concrete filters and inputs in
    [default_env]. *)

Ltac by_compute := apply (bool_decide_unpack _); vm_compute; exact I.

Section runs.
Import FilterMapper.
Local Existing Instance default_env.

(** The examples of the specification, run in [default_env]. *)

Example missing_key_substitution :
  _apply (__init__ [(KStr "a", None)] (ArgBool true) (ArgBool true))
         (VDict []) fresh
  = (Ok (VDict [(KStr "a", VNone)]), fresh).
Proof. by vm_compute. Qed.

Example missing_key_rejection :
  _apply (__init__ [(KStr "a", None)] (ArgBool false) (ArgBool true))
         (VDict []) fresh
  = (Ok (VDict [(KStr "a", VNone)]),
     mkCtx [mkError "missing" VNone [KStr "a"]] true).
Proof. by vm_compute. Qed.

Example extra_key_rejection :
  _apply (__init__ [(KStr "a", None)] (ArgBool true) (ArgBool false))
         (VDict [(KStr "a", VInt 1); (KStr "b", VInt 2)]) fresh
  = (Ok (VDict [(KStr "a", VInt 1)]),
     mkCtx [mkError "unexpected" (VInt 2) [KStr "b"]] true).
Proof. by vm_compute. Qed.

Example extra_keys_go_last :
  _apply (__init__ [(KStr "b", None); (KStr "a", None)]
                   (ArgBool true) (ArgIterable [KInt 7]))
         (VDict [(KInt 7, VNone); (KStr "a", VInt 1); (KStr "z", VInt 2)]) fresh
  = (Ok (VDict [(KStr "b", VNone); (KStr "a", VInt 1); (KInt 7, VNone)]),
     mkCtx [mkError "unexpected" (VInt 2) [KStr "z"]] true).
Proof. by vm_compute. Qed.

Example sequence_restriction_placeholder :
  FilterRepeater._apply (FilterRepeater.__init__ None (Some [KInt 0]))
                        (VList [VInt 10; VInt 20]) fresh
  = (Ok (VList [VInt 10; VNone]),
     mkCtx [mkError "unexpected" (VInt 20) [KStr "1"]] true).
Proof. by vm_compute. Qed.

Example mapping_restriction_drops :
  FilterRepeater._apply (FilterRepeater.__init__ None (Some [KStr "x"]))
                        (VDict [(KNone, VInt 2); (KStr "x", VInt 1)]) fresh
  = (Ok (VDict [(KStr "x", VInt 1)]),
     mkCtx [mkError "unexpected" (VInt 2) [KStr "None"]] true).
Proof. by vm_compute. Qed.

Example scalar_rejection :
  FilterRepeater._apply (FilterRepeater.__init__ None None) (VInt 3) fresh
  = (Ok VNone, mkCtx [mkError "TYPE_MISMATCH" (VInt 3) []] true) ∧
  _apply (__init__ [] (ArgBool true) (ArgBool true)) (VInt 3) fresh
  = (Ok VNone, mkCtx [mkError "TYPE_MISMATCH" (VInt 3) []] true).
Proof. by vm_compute. Qed.

Example unhashable_key_not_permitted :
  _missing_key_allowed
    (__init__ [] (ArgIterable [KStr "a"]) (ArgBool false)) (VList [])
  = Ok false ∧
  _extra_key_allowed
    (__init__ [] (ArgIterable [KStr "a"]) (ArgBool false)) (VStr "a")
  = Ok false.
Proof. by vm_compute. Qed.

(** C3 does not hold as stated: with the schema {a: Required}, every
    missing key allowed and the input {}, the key "a" is absent and its
    omission permitted, yet an error is recorded for it, the one of the
    chain applied to [None]. *)
Lemma mapper_missing_key_permitted_chain_error :
  let fm := [(KStr "a", Some Required)] in
  let self := __init__ fm (ArgBool true) (ArgBool true) in
  (KStr "a", Some Required) ∈ fm ∧
  (KStr "a" ∉ ([] : Mapping).*1) ∧
  _missing_key_allowed self (of_key (KStr "a")) = Ok true ∧
  _apply self (VDict []) fresh
  = (Ok (VDict [(KStr "a", VNone)]),
     mkCtx [mkError "empty" VNone [KStr "a"]] true) ∧
  log (iter_declared_item self [] (KStr "a") (Some Required)) ≠ [].
Proof.
  split_and!; [by left | apply not_elem_of_nil | done | by vm_compute | done].
Qed.

Lemma mapper_output_key_order_witness :
  let fm := [(KStr "a", None); (KStr "b", None)] in
  let d := [(KStr "c", VInt 1); (KStr "b", VInt 2); (KStr "z", VInt 3)] in
  let self := __init__ fm (ArgBool true) (ArgIterable [KStr "c"]) in
  ∃ out c' admitted_extra,
    _apply self (VDict d) fresh = (Ok (VDict out), c') ∧
    out.*1 = fm.*1 ++ admitted_extra ∧
    NoDup out.*1 ∧
    (∀ k, k ∈ fm.*1 → k ∈ out.*1) ∧
    (∀ k, k ∈ admitted_extra
          ↔ k ∈ d.*1 ∧ (k ∉ fm.*1) ∧ _extra_key_allowed self (of_key k) = Ok true).
Proof.
  apply (mapper_output_key_order
           [(KStr "a", None); (KStr "b", None)] (ArgBool true)
           (ArgIterable [KStr "c"])
           [(KStr "c", VInt 1); (KStr "b", VInt 2); (KStr "z", VInt 3)] fresh).
  - by_compute.
  - reflexivity.
Defined.

Lemma mapper_missing_key_rejected_witness :
  let fm := [(KStr "a", None)] in
  let self := __init__ fm (ArgBool false) (ArgBool true) in
  returns (iter_declared_item self [] (KStr "a") None) placeholder
          [mkError CODE_MISSING_KEY VNone (segment (KStr "a"))] ∧
  (∃ out,
     _apply self (VDict []) fresh =
       (Ok (VDict out),
        extend fresh
          ((fm ≫= λ kc, log (iter_declared_item self [] kc.1 kc.2))
           ++ (extra_keys self [] ≫= λ k, log (iter_extra_item self [] k)))) ∧
     get out (KStr "a") = Some placeholder) ∧
  _apply (__init__ [(KStr "a", None)] (ArgBool false) (ArgBool true))
         (VDict []) fresh
  = (Ok (VDict [(KStr "a", placeholder)]),
     mkCtx [mkError CODE_MISSING_KEY VNone [KStr "a"]] true).
Proof.
  apply (mapper_missing_key_rejected
           [(KStr "a", None)] (ArgBool false) (ArgBool true) [] fresh
           (KStr "a") None).
  - by_compute.
  - reflexivity.
  - apply list_elem_of_here.
  - by_compute.
  - reflexivity.
Defined.

Lemma mapper_missing_key_permitted_witness :
  let fm := [(KStr "a", Some Required)] in
  let self := __init__ fm (ArgIterable [KStr "a"]) (ArgBool true) in
  _missing_key_allowed self (of_key (KStr "a")) = Ok true ∧
  returns (iter_declared_item self [] (KStr "a") (Some Required))
          (apply_chain (Some Required) VNone).1
          (under (KStr "a") <$> (apply_chain (Some Required) VNone).2) ∧
  (∃ out,
     _apply self (VDict []) fresh =
       (Ok (VDict out),
        extend fresh
          ((fm ≫= λ kc, log (iter_declared_item self [] kc.1 kc.2))
           ++ (extra_keys self [] ≫= λ k, log (iter_extra_item self [] k)))) ∧
     get out (KStr "a") = Some (apply_chain (Some Required) VNone).1) ∧
  _apply (__init__ [(KStr "a", None)] (ArgBool true) (ArgBool true))
         (VDict []) fresh
  = (Ok (VDict [(KStr "a", VNone)]), fresh).
Proof.
  apply (mapper_missing_key_permitted
           [(KStr "a", Some Required)] (ArgIterable [KStr "a"]) (ArgBool true)
           [] fresh (KStr "a") (Some Required)).
  - by_compute.
  - reflexivity.
  - apply list_elem_of_here.
  - by_compute.
  - right. exists [KStr "a"]. split; [reflexivity | apply list_elem_of_here].
Defined.

Lemma mapper_extra_keys_witness :
  let fm := [(KStr "a", None)] in
  let d := [(KStr "a", VInt 1); (KStr "b", VInt 2)] in
  let key := KStr "b" in
  let self := __init__ fm (ArgBool true) (ArgBool false) in
  ∃ declared extra errs_declared errs_extra,
    returns (iter_declared self d fm) declared errs_declared ∧
    returns (iter_extra self d (extra_keys self d)) extra errs_extra ∧
    _apply self (VDict d) fresh
    = (Ok (VDict (declared ++ extra)),
       extend fresh (errs_declared ++ errs_extra)) ∧
    declared.*1 = fm.*1 ∧
    key ∈ extra_keys self d ∧
    errs_extra = (extra_keys self d ≫= λ k, log (iter_extra_item self d k)) ∧
    match _extra_key_allowed self (of_key key) with
    | Ok true =>
        returns (iter_extra_item self d key) (Some (key, VInt 2)) [] ∧
        get (declared ++ extra) key = Some (VInt 2)
    | Ok false =>
        returns (iter_extra_item self d key) None
                [mkError CODE_EXTRA_KEY (VInt 2) [KStr (unicodify_key key)]] ∧
        key ∉ (declared ++ extra).*1
    | Raised _ => False
    end.
Proof.
  apply (mapper_extra_keys
           [(KStr "a", None)] (ArgBool true) (ArgBool false)
           [(KStr "a", VInt 1); (KStr "b", VInt 2)] fresh (KStr "b") (VInt 2)).
  - by_compute.
  - reflexivity.
  - reflexivity.
  - by_compute.
Defined.

Lemma mapper_error_tags_witness :
  let self := __init__ [(KInt 7, None)] (ArgBool false) (ArgBool false) in
  let key := KInt 7 in
  ∃ e_missing e_extra,
    log (iter_declared_item self [] key None) = [e_missing] ∧
    log (iter_extra_item self [(KInt 7, VNone)] key) = [e_extra] ∧
    reason e_missing = CODE_MISSING_KEY ∧
    path e_missing = segment key ∧
    reason e_extra = CODE_EXTRA_KEY ∧
    path e_extra = segment (KStr (unicodify_key key)) ∧
    path e_missing ≠ path e_extra.
Proof.
  apply (mapper_error_tags
           (__init__ [(KInt 7, None)] (ArgBool false) (ArgBool false))
           (__init__ [(KInt 7, None)] (ArgBool false) (ArgBool false))
           [] [(KInt 7, VNone)] (KInt 7) None VNone).
  - intros s. discriminate.
  - by_compute.
  - reflexivity.
  - reflexivity.
  - reflexivity.
Defined.

Lemma non_container_rejected_witness :
  FilterRepeater._apply (FilterRepeater.__init__ None None) (VInt 3) fresh
  = (Ok VNone, extend fresh [mkError CODE_TYPE_MISMATCH (VInt 3) []]) ∧
  _apply (__init__ [] (ArgBool true) (ArgBool true)) (VList []) fresh
  = (Ok VNone, extend fresh [mkError CODE_TYPE_MISMATCH (VList []) []]).
Proof.
  apply (non_container_rejected
           (FilterRepeater.__init__ None None)
           (__init__ [] (ArgBool true) (ArgBool true))
           (VInt 3) (VList []) fresh); reflexivity.
Defined.

End runs.

Section repeater_runs.
Import FilterRepeater.
Local Existing Instance default_env.

Lemma repeater_sequence_elements_witness :
  let self := __init__ None (Some [KInt 0]) in
  let l := [VInt 10; VInt 20] in
  ∃ out errs,
    _apply self (VList l) fresh = (Ok (VList out), extend fresh errs) ∧
    length out = length l ∧
    errs = mjoin (imap (λ i x, element_errors self (KInt (Z.of_nat i)) x) l) ∧
    (∀ i x, l !! i = Some x →
       let k := KInt (Z.of_nat i) in
       if admitted self k
       then out !! i = Some (apply_chain (_filter_chain self) x).1 ∧
            element_errors self k x
            = under (KStr (unicodify_key k))
                <$> (apply_chain (_filter_chain self) x).2
       else out !! i = Some placeholder ∧
            element_errors self k x
            = [mkError CODE_EXTRA_KEY x [KStr (unicodify_key k)]]) ∧
    ((∀ i, (i < length l)%nat → admitted self (KInt (Z.of_nat i)) = true) →
     out = (λ x, (apply_chain (_filter_chain self) x).1) <$> l).
Proof.
  apply (repeater_sequence_elements
           (__init__ None (Some [KInt 0])) (VList [VInt 10; VInt 20])
           [VInt 10; VInt 20] fresh); reflexivity.
Defined.

Lemma repeater_mapping_entries_witness :
  let self := __init__ None (Some [KStr "x"]) in
  let d := [(KStr "x", VInt 1); (KNone, VInt 2)] in
  ∃ out errs,
    _apply self (VDict d) fresh = (Ok (VDict out), extend fresh errs) ∧
    out.*1 = filter (λ k, admitted self k) d.*1 ∧
    errs = (d ≫= λ kv, element_errors self kv.1 kv.2) ∧
    (∀ k v, (k, v) ∈ d →
       if admitted self k
       then (restrict_keys self = None ∨ ∃ s, restrict_keys self = Some s ∧ k ∈ s) ∧
            get out k = Some (apply_chain (_filter_chain self) v).1 ∧
            element_errors self k v
            = under (KStr (unicodify_key k))
                <$> (apply_chain (_filter_chain self) v).2
       else (∃ s, restrict_keys self = Some s ∧ k ∉ s) ∧
            (k ∉ out.*1) ∧
            element_errors self k v
            = [mkError CODE_EXTRA_KEY v [KStr (unicodify_key k)]]).
Proof.
  apply (repeater_mapping_entries
           (__init__ None (Some [KStr "x"]))
           [(KStr "x", VInt 1); (KNone, VInt 2)] fresh).
  - by_compute.
  - reflexivity.
Defined.

Lemma repeater_empty_restriction_witness :
  let d := [(KStr "x", VInt 1)] in
  let l := [VInt 10; VInt 20] in
  let self := __init__ None (Some []) in
  (∀ k, admitted self k = false) ∧
  _apply self (VDict d) fresh
  = (Ok (VDict []),
     extend fresh ((λ kv, mkError CODE_EXTRA_KEY kv.2 [KStr (unicodify_key kv.1)])
                     <$> d)) ∧
  _apply self (VList l) fresh
  = (Ok (VList (replicate (length l) placeholder)),
     extend fresh (imap (λ i x, mkError CODE_EXTRA_KEY x
                                  [KStr (unicodify_key (KInt (Z.of_nat i)))]) l)).
Proof.
  apply (repeater_empty_restriction
           None [(KStr "x", VInt 1)] (VList [VInt 10; VInt 20])
           [VInt 10; VInt 20] fresh); reflexivity.
Defined.

End repeater_runs.

(** * Further properties *)

(** ** Lists, dicts and contexts *)

Lemma bind_nil_iff {A B} (f : A → list B) (l : list A) :
  l ≫= f = [] ↔ ∀ x, x ∈ l → f x = [].
Proof.
  induction l as [|x l IH]; cbn [mbind list_bind].
  - split; [by intros _ x ?%elem_of_nil | done].
  - rewrite app_nil, IH. split.
    + intros [Hx Hl] y [->|Hy]%elem_of_cons; auto.
    + intros Hall. split; [apply Hall; by left|].
      intros y Hy. apply Hall. by right.
Qed.

Lemma and_iff_both (A B C D : Prop) : (A ↔ B) → (C ↔ D) → (A ∧ C ↔ B ∧ D).
Proof. tauto. Qed.

Lemma filter_all_true {A} (P : A → bool) (l : list A) :
  (∀ x, x ∈ l → P x = true) → filter (λ x, P x) l = l.
Proof.
  induction l as [|x l IH]; intros HP; [done|].
  rewrite filter_cons, (HP x) by by left. simpl.
  f_equal. apply IH. intros; apply HP; by right.
Qed.

Lemma omap_ext_in {A B} (f g : A → option B) (l : list A) :
  (∀ x, x ∈ l → f x = g x) → omap f l = omap g l.
Proof.
  induction l as [|x l IH]; intros Hfg; [done|].
  cbn [omap list_omap]. rewrite Hfg by by left.
  rewrite IH; [done|]. intros; apply Hfg; by right.
Qed.

Lemma omap_filter_None {A B} (f : A → option B) (P : A → bool) (l : list A) :
  (∀ x, x ∈ l → P x = false → f x = None) →
  omap f (filter (λ x, P x) l) = omap f l.
Proof.
  induction l as [|x l IH]; intros HP; [done|].
  rewrite filter_cons. cbn [omap list_omap].
  destruct (P x) eqn:Hx; simpl.
  - assert (omap f (filter (λ x, P x) l) = omap f l) as Hl.
    { apply IH. intros; apply HP; [by right | done]. }
    destruct (f x); [f_equal|]; exact Hl.
  - rewrite (HP x) by (by left || done). apply IH.
    intros; apply HP; [by right | done].
Qed.

Lemma get_elem_of_Some {A} (d : list (Key * A)) k v : get d k = Some v → (k, v) ∈ d.
Proof.
  induction d as [|[k' v'] d IH]; simpl; [done|].
  case_decide as Hk; subst.
  - intros [= ->]. by left.
  - intros Hg. right. by apply IH.
Qed.

Lemma get_Permutation {A} (d d' : list (Key * A)) k :
  NoDup d.*1 → d ≡ₚ d' → get d k = get d' k.
Proof.
  intros Hnd Hp. assert (NoDup d'.*1) as Hnd' by by rewrite <-Hp.
  destruct (get d k) as [v|] eqn:Hg.
  - symmetry. apply get_elem_of; [done|]. rewrite <-Hp. by apply get_elem_of_Some.
  - symmetry. apply get_None. rewrite <-Hp. by apply get_None.
Qed.

Lemma get_app_r {A} (d1 d2 : list (Key * A)) k :
  k ∉ d1.*1 → get (d1 ++ d2) k = get d2 k.
Proof.
  induction d1 as [|[k' v'] d1 IH]; [done|]. simpl.
  rewrite not_elem_of_cons. intros [Hne Hk].
  rewrite decide_False by done. by apply IH.
Qed.

Lemma elem_of_setitem_keys {A} (d : list (Key * A)) k v k' :
  k' ∈ (setitem d k v).*1 ↔ k' = k ∨ k' ∈ d.*1.
Proof.
  induction d as [|[k0 v0] d IH]; simpl.
  - rewrite list_elem_of_singleton, elem_of_nil. tauto.
  - case_decide as Hk; subst; simpl; rewrite !elem_of_cons.
    + tauto.
    + rewrite IH. tauto.
Qed.

Lemma elem_of_OrderedDict_keys {A} (l : list (Key * A)) k :
  k ∈ (OrderedDict l).*1 ↔ k ∈ l.*1.
Proof.
  unfold OrderedDict.
  assert (∀ acc : list (Key * A),
            k ∈ (foldl (λ d kv, setitem d kv.1 kv.2) acc l).*1
            ↔ k ∈ acc.*1 ∨ k ∈ l.*1) as Hgen.
  { induction l as [|[k0 v0] l IH]; intros acc; simpl.
    - rewrite elem_of_nil. tauto.
    - rewrite IH, elem_of_setitem_keys, elem_of_cons. tauto. }
  rewrite Hgen. simpl. rewrite elem_of_nil. tauto.
Qed.

Lemma length_chars s : length (chars s) = String.length s.
Proof. induction s as [|a s IH]; simpl; by rewrite ?IH. Qed.

(** ** More on [FilterRepeater] *)

Section repeater_more.
Context `{Env}.
Import FilterRepeater.
Implicit Types (self : FilterRepeater.t) (d : Mapping) (l : list PyVal).

Lemma repeater_apply_type_fail self v c :
  is_Iterable v = false →
  _apply self v c = (Ok VNone, extend c [mkError CODE_TYPE_MISMATCH v []]).
Proof.
  intros Hv. unfold _apply.
  rewrite bind_run, (returns_type_fail is_Iterable v Hv c), bind_run.
  unfold has_errors at 1. by rewrite has_errors_extend_cons.
Qed.

(** X1. [_apply] raises nothing, whatever the value, the chain and the
    restriction, and the shape of its result mirrors the shape of the
    input: a dict for a dict, with keys among the input's; a list of the
    same length for a list; a list of the characters' results for a text;
    [None] for anything else. *)
Theorem repeater_apply_shape self v c :
  _has_errors c = false →
  ∃ r errs,
    _apply self v c = (Ok r, extend c errs) ∧
    match v with
    | VDict d => ∃ out, r = VDict out ∧ ∀ k, k ∈ out.*1 → k ∈ d.*1
    | VList l => ∃ out, r = VList out ∧ length out = length l
    | VStr s => ∃ out, r = VList out ∧ length out = String.length s
    | VNone | VInt _ => r = VNone
    end.
Proof.
  intros Hc. destruct v as [|z|s|l|d].
  - eexists _, _. split; [by apply repeater_apply_type_fail | done].
  - eexists _, _. split; [by apply repeater_apply_type_fail | done].
  - eexists _, _. split; [by apply (returns_apply_sequence self (VStr s) (chars s))|].
    eexists. split; [done|]. by rewrite length_imap, length_chars.
  - eexists _, _. split; [by apply (returns_apply_sequence self (VList l) l)|].
    eexists. split; [done|]. by rewrite length_imap.
  - eexists _, _. split; [by apply returns_apply_mapping|].
    eexists. split; [done|]. intros k.
    rewrite elem_of_OrderedDict_keys, <-list_fmap_compose.
    intros (kv & -> & Hkv)%list_elem_of_fmap.
    apply list_elem_of_filter in Hkv as [_ Hkv].
    apply list_elem_of_fmap. by exists kv.
Qed.

Lemma element_errors_unfiltered rk k v :
  element_errors (mk None rk) k v
  = if admitted (mk None rk) k then []
    else [mkError CODE_EXTRA_KEY v [KStr (unicodify_key k)]].
Proof. unfold element_errors. by destruct (admitted _ k). Qed.

Lemma unfiltered_values rk (l : Mapping) :
  (λ kv : Key * PyVal, (kv.1, (apply_chain (_filter_chain (mk None rk)) kv.2).1)) <$> l
  = l.
Proof. rewrite <-(list_fmap_id l) at 2. apply list_fmap_ext. by intros _ [k v] _. Qed.

Lemma unfiltered_errors rk d :
  (d ≫= λ kv, element_errors (mk None rk) kv.1 kv.2)
  = (λ kv, mkError CODE_EXTRA_KEY kv.2 [KStr (unicodify_key kv.1)])
      <$> filter (λ kv, ¬ admitted (mk None rk) kv.1) d.
Proof.
  induction d as [|[k v] d IH]; [done|].
  cbn [mbind list_bind fst snd]. rewrite IH, filter_cons. simpl.
  rewrite element_errors_unfiltered. by destruct (admitted _ k).
Qed.

(** X2. A repeater with no filter and a restriction leaves the admitted
    entries of a dict untouched: the output is the input without the
    entries whose key is restricted out, and the errors are one
    'unexpected' error for each of those, in the order of the input. *)
Theorem repeater_unfiltered_subset (rk : option (list Key)) d c :
  NoDup d.*1 → _has_errors c = false →
  let self := __init__ None rk in
  _apply self (VDict d) c
  = (Ok (VDict (filter (λ kv, admitted self kv.1) d)),
     extend c ((λ kv, mkError CODE_EXTRA_KEY kv.2 [KStr (unicodify_key kv.1)])
                 <$> filter (λ kv, ¬ admitted self kv.1) d)).
Proof.
  intros Hnd Hc self. rewrite returns_apply_mapping by done.
  unfold self, __init__. rewrite unfiltered_values, unfiltered_errors.
  rewrite OrderedDict_NoDup; [done|].
  rewrite filter_keys. by apply NoDup_filter.
Qed.

(** X3. A repeater with no filter and no restriction returns a dict or a
    list as it is and records nothing. *)
Theorem repeater_unfiltered_identity d v l c :
  NoDup d.*1 → is_Mapping v = false → elements_of v = Some l →
  _has_errors c = false →
  _apply (__init__ None None) (VDict d) c = (Ok (VDict d), c) ∧
  _apply (__init__ None None) v c = (Ok (VList l), c).
Proof.
  intros Hnd Hm Hl Hc. split.
  - rewrite returns_apply_mapping by done.
    assert (filter (λ kv : Key * PyVal, admitted (__init__ None None) kv.1) d = d) as ->.
    { clear Hnd. induction d as [|kv d IH]; [done|].
      rewrite filter_cons. simpl. f_equal. exact IH. }
    assert ((λ kv : Key * PyVal,
               (kv.1, (apply_chain (_filter_chain (__init__ None None)) kv.2).1)) <$> d
            = d) as ->.
    { rewrite <-(list_fmap_id d) at 2. apply list_fmap_ext. by intros _ [k x] _. }
    rewrite OrderedDict_NoDup by done.
    assert ((d ≫= λ kv, element_errors (__init__ None None) kv.1 kv.2) = []) as ->.
    { by apply bind_nil_iff. }
    by rewrite extend_nil.
  - rewrite (returns_apply_sequence _ v l) by done.
    assert (imap (λ i x, element_value (__init__ None None) (KInt (Z.of_nat i)) x) l = l)
      as ->.
    { rewrite <-(list_fmap_id l) at 2. rewrite <-imap_const. by apply imap_ext. }
    assert (∀ (f : nat → Z),
              mjoin (imap (λ i x, element_errors (__init__ None None) (KInt (f i)) x) l)
              = []) as ->.
    { clear Hl. induction l as [|x l IH]; intros f; [done|].
      cbn [imap mjoin list_join]. exact (IH (f ∘ S)). }
    by rewrite extend_nil.
Qed.

(** X4. A restriction that contains every key of the input dict, or every
    index of the input sequence, changes nothing: the repeater behaves as
    the unrestricted one with the same chain. *)
Theorem repeater_restriction_covering filter_chain (ks : list Key) d v l c :
  is_Mapping v = false → elements_of v = Some l → _has_errors c = false →
  (∀ k, k ∈ d.*1 → k ∈ ks) →
  (∀ i, (i < length l)%nat → KInt (Z.of_nat i) ∈ ks) →
  _apply (__init__ filter_chain (Some ks)) (VDict d) c
  = _apply (__init__ filter_chain None) (VDict d) c ∧
  _apply (__init__ filter_chain (Some ks)) v c
  = _apply (__init__ filter_chain None) v c.
Proof.
  intros Hm Hl Hc Hd Hidx.
  assert (∀ k, k ∈ ks → admitted (__init__ filter_chain (Some ks)) k = true) as Hadm.
  { intros k Hk. unfold admitted. simpl. by apply bool_decide_eq_true, elem_of_list_to_set. }
  split.
  - rewrite !returns_apply_mapping by done.
    assert (∀ kv, kv ∈ d → admitted (__init__ filter_chain (Some ks)) kv.1 = true) as Hin.
    { intros kv Hkv. apply Hadm, Hd, list_elem_of_fmap. by exists kv. }
    assert (filter (λ kv : Key * PyVal, admitted (__init__ filter_chain (Some ks)) kv.1) d
            = filter (λ kv : Key * PyVal, admitted (__init__ filter_chain None) kv.1) d)
      as ->.
    { clear Hd. induction d as [|kv d IH]; [done|].
      rewrite !filter_cons. simpl. rewrite (Hin kv) by by left.
      simpl. f_equal. apply IH. intros; apply Hin; by right. }
    do 2 f_equal. apply bind_ext_in. intros kv Hkv.
    unfold element_errors. by rewrite (Hin kv Hkv).
  - rewrite !(returns_apply_sequence _ v l) by done. f_equal.
    + do 2 f_equal. apply imap_ext. intros i x Hi. unfold element_value.
      rewrite Hadm; [done|]. by eapply Hidx, lookup_lt_Some.
    + do 2 f_equal. apply imap_ext. intros i x Hi. unfold element_errors.
      rewrite Hadm; [done|]. by eapply Hidx, lookup_lt_Some.
Qed.

End repeater_more.

(** ** More on [FilterMapper] *)

Section mapper_more.
Context `{Env}.
Import FilterMapper.
Implicit Types (self : FilterMapper.t) (d : Mapping) (k key : Key).
Implicit Types (fm : list (Key * FilterChain)) (am ae : PolicyArg).

Lemma mapper_apply_type_fail self v c :
  is_Mapping v = false →
  _apply self v c = (Ok VNone, extend c [mkError CODE_TYPE_MISMATCH v []]).
Proof.
  intros Hv. unfold _apply.
  rewrite bind_run, (returns_type_fail is_Mapping v Hv c), bind_run.
  unfold has_errors at 1. by rewrite has_errors_extend_cons.
Qed.

(** The whole application to a mapping, whatever the schema holds. *)
Lemma mapper_apply_returns self d c :
  _has_errors c = false →
  _apply self (VDict d) c =
    (Ok (VDict (OrderedDict
       (((λ kc, (kc.1, declared_value self d kc.1 kc.2)) <$> _filters self)
        ++ omap (extra_entry self d) (extra_keys self d)))),
     extend c ((_filters self ≫= λ kc, declared_errors self d kc.1 kc.2)
               ++ (extra_keys self d ≫= extra_errors self d))).
Proof.
  intros Hc. unfold _apply.
  rewrite bind_run, (returns_type_pass is_Mapping (VDict d) eq_refl c), extend_nil.
  rewrite bind_run. unfold has_errors at 1. rewrite Hc.
  cbn [as_Mapping]. rewrite bind_run. unfold mret at 1, M_ret at 1.
  assert (∀ k, k ∈ extra_keys self d → k ∈ d.*1) as Hin.
  { intros k Hk. by apply elem_of_extra_keys in Hk as [? _]. }
  pose proof (returns_bind _ (λ declared, extra ← iter_extra self d (extra_keys self d);
                                          mret (declared ++ extra)) _ _ _ _
    (returns_iter_declared self d (_filters self))
    (returns_then _ (λ extra, mret (_ ++ extra)) _ _ _
       (returns_iter_extra self d _ Hin) (returns_ret _))) as Hr.
  rewrite bind_run. unfold iter. by rewrite Hr.
Qed.

(** X5. [_apply] raises nothing, whatever the value: the lookups
    [value[key]] of the second loop only meet keys of the input.  The
    result is a dict for a dict, with keys among those of the schema and of
    the input, and [None] for anything else. *)
Theorem mapper_apply_shape self v c :
  _has_errors c = false →
  ∃ r errs,
    _apply self v c = (Ok r, extend c errs) ∧
    match v with
    | VDict d =>
        ∃ out, r = VDict out ∧
               ∀ k, k ∈ out.*1 → k ∈ (_filters self).*1 ∨ k ∈ d.*1
    | _ => r = VNone
    end.
Proof.
  intros Hc.
  destruct v as [|z|s|l|d];
    try (eexists _, _; split; [by apply mapper_apply_type_fail | done]).
  eexists _, _. split; [by apply mapper_apply_returns|].
  eexists. split; [done|]. intros k.
  rewrite elem_of_OrderedDict_keys, fmap_app, elem_of_app, declared_keys.
  intros [Hk | Hk]; [by left | right].
  apply list_elem_of_fmap in Hk as ([k' v] & -> & Hkv).
  apply list_elem_of_omap in Hkv as (k0 & Hk0 & Hentry).
  apply elem_of_extra_keys in Hk0 as [Hk0 _].
  unfold extra_entry in Hentry.
  destruct (permits _ k0); [|done].
  destruct (get d k0); [|done]. by injection Hentry as <- _.
Qed.

(** X6. When a declared key is present in the input, its chain is applied
    to the value the input holds for it, whatever the missing-key policy
    says; the output binds the key to the chain's result, and what is
    recorded for the key is what the chain records, tagged with the key. *)
Theorem mapper_present_key_filtered fm am ae d c key chain v :
  NoDup fm.*1 → _has_errors c = false →
  (key, chain) ∈ fm → get d key = Some v →
  let self := __init__ fm am ae in
  returns (iter_declared_item self d key chain)
          (apply_chain chain v).1
          (under key <$> (apply_chain chain v).2) ∧
  ∃ out,
    _apply self (VDict d) c =
      (Ok (VDict out),
       extend c ((fm ≫= λ kc, log (iter_declared_item self d kc.1 kc.2))
                 ++ (extra_keys self d ≫= λ k, log (iter_extra_item self d k)))) ∧
    get out key = Some (apply_chain chain v).1.
Proof.
  intros Hnd Hc Hin Hg self.
  assert (_filters self = fm) as Hfs by by apply filters_init.
  pose proof (returns_declared_item self d key chain) as Hstep.
  unfold declared_value, declared_errors in Hstep. rewrite Hg in Hstep.
  split; [done|].
  pose proof (mapper_apply_log self d c) as Hrun.
  rewrite Hfs in Hrun. eexists. split; [by apply Hrun|].
  rewrite (get_declared self d fm key chain) by done.
  unfold declared_value. by rewrite Hg.
Qed.

(** X7. What the two policies built by the initializer decide, for any
    key: a [bool] policy answers with that [bool] for every key, hashable
    or not; a policy built from an iterable permits exactly the hashable
    keys that occur in it. *)
Theorem mapper_policy_decides fm am ae (key : PyVal) :
  let self := __init__ fm am ae in
  let decides (a : PolicyArg) : bool :=
    match a with
    | ArgBool b => b
    | ArgIterable ks =>
        match hash key with
        | Some k => bool_decide (k ∈ ks)
        | None => false
        end
    end in
  _missing_key_allowed self key = Ok (decides am) ∧
  _extra_key_allowed self key = Ok (decides ae).
Proof.
  intros self decides. unfold _missing_key_allowed, _extra_key_allowed. simpl.
  split.
  - destruct am as [[]|ks]; simpl; [done..|].
    destruct (hash key) as [k|]; simpl; [|done]. f_equal.
    apply bool_decide_ext, elem_of_list_to_set.
  - destruct ae as [[]|ks]; simpl; [done..|].
    destruct (hash key) as [k|]; simpl; [|done]. f_equal.
    apply bool_decide_ext, elem_of_list_to_set.
Qed.

Lemma extra_keys_declared_only self d :
  (∀ k, k ∈ d.*1 → k ∈ (_filters self).*1) → extra_keys self d = [].
Proof.
  intros Hd. apply elem_of_nil_inv. intros k [Hk Hk']%elem_of_extra_keys. auto.
Qed.

(** X8. A mapper with no filter on any key accepts an input, that is,
    records nothing, exactly when every declared key is in the input or
    may be missing, and every other key of the input is a permitted
    extra key. *)
Theorem mapper_unfiltered_accepts_iff fm am ae d c :
  NoDup fm.*1 → _has_errors c = false →
  (∀ kc, kc ∈ fm → kc.2 = None) →
  let self := __init__ fm am ae in
  ∃ out errs,
    _apply self (VDict d) c = (Ok (VDict out), extend c errs) ∧
    (errs = []
     ↔ (∀ k, k ∈ fm.*1 →
             k ∈ d.*1 ∨ _missing_key_allowed self (of_key k) = Ok true) ∧
       (∀ k, k ∈ d.*1 →
             k ∈ fm.*1 ∨ _extra_key_allowed self (of_key k) = Ok true)).
Proof.
  intros Hnd Hc Hid self.
  assert (_filters self = fm) as Hfs by by apply filters_init.
  eexists _, _. split; [apply mapper_apply_run; [by rewrite Hfs | done]|].
  rewrite Hfs, app_nil, !bind_nil_iff. apply and_iff_both.
  - split.
    + intros Hall k (kc & -> & Hkc)%list_elem_of_fmap.
      specialize (Hall kc Hkc). unfold declared_errors in Hall.
      rewrite missing_key_allowed_permits.
      destruct (get d kc.1) as [v|] eqn:Hg.
      * left. apply get_is_Some. by rewrite Hg.
      * right. by destruct (permits (allow_missing_keys self) kc.1).
    + intros Hall [k ch] Hkc. specialize (Hid _ Hkc). simpl in Hid. subst ch.
      unfold declared_errors. simpl.
      destruct (get d k) as [v|] eqn:Hg; [done|].
      destruct (Hall k) as [Hk | Hk].
      * apply list_elem_of_fmap. by exists (k, None).
      * apply get_None in Hg. done.
      * rewrite missing_key_allowed_permits in Hk. injection Hk as Hk.
        simpl in Hk. by rewrite Hk.
  - split.
    + intros Hall k Hk. destruct (decide (k ∈ fm.*1)) as [|Hnk]; [by left | right].
      assert (k ∈ extra_keys self d) as Hex.
      { apply elem_of_extra_keys. by rewrite Hfs. }
      specialize (Hall k Hex). unfold extra_errors in Hall.
      rewrite extra_key_allowed_permits.
      destruct (permits (allow_extra_keys self) k); [done|].
      apply get_is_Some in Hk as [v Hg]. by rewrite Hg in Hall.
    + intros Hall k [Hk Hnk]%elem_of_extra_keys. rewrite Hfs in Hnk.
      destruct (Hall k Hk) as [|Hp]; [done|].
      rewrite extra_key_allowed_permits in Hp.
      assert (permits (allow_extra_keys self) k = true) as Hp' by by injection Hp.
      unfold extra_errors. by rewrite Hp'.
Qed.

(** X9. With the default policies (everything may be missing, every extra
    key is allowed) a mapper loses no key of the input and records no key
    error: each input key is in the output, an extra key with the value it
    had, and the recorded errors are those of the chains alone, each run
    on the input's value for its key, or on [None] when there is none. *)
Theorem mapper_default_policies fm d c :
  NoDup fm.*1 → _has_errors c = false →
  let self := __init__ fm (ArgBool true) (ArgBool true) in
  ∃ out,
    _apply self (VDict d) c
    = (Ok (VDict out),
       extend c (fm ≫= λ kc, under kc.1
                               <$> (apply_chain kc.2 (default VNone (get d kc.1))).2)) ∧
    (∀ k, k ∈ out.*1 ↔ k ∈ fm.*1 ∨ k ∈ d.*1) ∧
    (∀ k v, get d k = Some v → k ∉ fm.*1 → get out k = Some v).
Proof.
  intros Hnd Hc self.
  assert (_filters self = fm) as Hfs by by apply filters_init.
  assert (NoDup (_filters self).*1) as Hnd' by by rewrite Hfs.
  assert (∀ k, k ∈ extra_keys self d → k ∈ d.*1) as Hin.
  { intros k Hk. by apply elem_of_extra_keys in Hk as [? _]. }
  pose proof (mapper_apply_run self d c Hnd' Hc) as Hrun.
  set (out := ((λ kc : Key * FilterChain, (kc.1, declared_value self d kc.1 kc.2))
                 <$> _filters self)
              ++ omap (extra_entry self d) (extra_keys self d)) in *.
  assert (out.*1 = fm.*1 ++ extra_keys self d) as Hkeys.
  { unfold out. rewrite fmap_app, declared_keys, extra_entry_keys, Hfs by done.
    f_equal. by apply filter_all_true. }
  exists out. split; [|split].
  - rewrite Hrun. do 2 f_equal.
    assert ((extra_keys self d ≫= extra_errors self d) = []) as ->.
    { by apply bind_nil_iff. }
    rewrite app_nil_r, Hfs. apply bind_ext_in. intros [k ch] _.
    unfold declared_errors. simpl. by destruct (get d k).
  - intros k. rewrite Hkeys, elem_of_app, elem_of_extra_keys, Hfs.
    destruct (decide (k ∈ fm.*1)); tauto.
  - intros k v Hg Hk. apply get_elem_of.
    + rewrite Hkeys, <-Hfs. apply NoDup_app. split_and!; [done| |apply NoDup_extra_keys].
      intros k' Hk' Hex. by apply elem_of_extra_keys in Hex as [_ ?].
    + unfold out. apply elem_of_app. right. apply list_elem_of_omap. exists k.
      split; [|unfold extra_entry; simpl; by rewrite Hg].
      apply elem_of_extra_keys. rewrite Hfs. split; [|done].
      apply get_is_Some. by rewrite Hg.
Qed.

(** X10. The order of the input's entries does not matter: two dicts with
    the same entries in another order, all under declared keys, give the
    same result and the same errors in the same order; the schema alone
    fixes both. *)
Theorem mapper_input_order_irrelevant fm am ae d d' c :
  NoDup fm.*1 → _has_errors c = false →
  NoDup d.*1 → d ≡ₚ d' → (∀ k, k ∈ d.*1 → k ∈ fm.*1) →
  _apply (__init__ fm am ae) (VDict d) c = _apply (__init__ fm am ae) (VDict d') c.
Proof.
  intros Hnd Hc Hd Hp Hdecl. set (self := __init__ fm am ae).
  assert (_filters self = fm) as Hfs by by apply filters_init.
  assert (NoDup (_filters self).*1) as Hnd' by by rewrite Hfs.
  assert (∀ k, get d k = get d' k) as Hget by (intros; by apply get_Permutation).
  rewrite !mapper_apply_run by done.
  rewrite !extra_keys_declared_only.
  2:{ intros k Hk. rewrite Hfs. apply Hdecl. by rewrite Hp. }
  2:{ intros k Hk. rewrite Hfs. by apply Hdecl. }
  simpl. rewrite !app_nil_r. f_equal.
  - do 2 f_equal. apply list_fmap_ext. intros _ [k ch] _. simpl.
    unfold declared_value. by rewrite Hget.
  - f_equal. apply bind_ext_in. intros [k ch] _. simpl.
    unfold declared_errors. by rewrite Hget.
Qed.

(** X11. Applying a mapper with no filter on any key to its own output
    records nothing, whatever the first application recorded: the output
    has every declared key and no rejected one.  The second output holds
    the same entries, the declared ones in the same places. *)
Theorem mapper_unfiltered_reapply fm am ae d c c2 :
  NoDup fm.*1 → (∀ kc, kc ∈ fm → kc.2 = None) →
  _has_errors c = false → _has_errors c2 = false →
  let self := __init__ fm am ae in
  ∃ out c' out2,
    _apply self (VDict d) c = (Ok (VDict out), c') ∧
    _apply self (VDict out) c2 = (Ok (VDict out2), c2) ∧
    out2 ≡ₚ out ∧
    take (length fm) out2 = take (length fm) out.
Proof.
  intros Hnd Hid Hc Hc2 self.
  assert (_filters self = fm) as Hfs by by apply filters_init.
  assert (NoDup (_filters self).*1) as Hnd' by by rewrite Hfs.
  assert (∀ d0 k, k ∈ extra_keys self d0 → k ∈ d0.*1) as Hin.
  { intros d0 k Hk. by apply elem_of_extra_keys in Hk as [? _]. }
  set (D := (λ kc : Key * FilterChain, (kc.1, declared_value self d kc.1 kc.2)) <$> fm).
  set (E := omap (extra_entry self d) (extra_keys self d)).
  set (A := filter (λ k, permits (allow_extra_keys self) k) (extra_keys self d)).
  assert (D.*1 = fm.*1) as HD by apply declared_keys.
  assert (E.*1 = A) as HE by apply extra_entry_keys, Hin.
  assert (NoDup (fm.*1 ++ A)) as Hout.
  { rewrite <-Hfs at 1. by apply NoDup_output_keys. }
  assert (∀ k, k ∈ A → k ∉ fm.*1) as Hdisj.
  { intros k Hk. apply elem_of_admitted_extra in Hk as (_ & Hk & _). by rewrite <-Hfs. }
  assert (∀ k, k ∈ A → extra_entry self (D ++ E) k = extra_entry self d k) as Hentry.
  { intros k Hk. unfold extra_entry.
    destruct (permits (allow_extra_keys self) k) eqn:Hp; [|done]. f_equal.
    rewrite get_app_r by (rewrite HD; by apply Hdisj).
    pose proof Hk as Hk'. apply elem_of_admitted_extra in Hk' as (Hd & _ & _).
    apply get_is_Some in Hd as [v Hg]. rewrite Hg.
    apply get_elem_of.
    - rewrite HE. by apply NoDup_app in Hout as (_ & _ & ?).
    - apply list_elem_of_omap. exists k. split.
      + by apply list_elem_of_filter in Hk as [_ ?].
      + unfold extra_entry. by rewrite Hp, Hg. }
  assert (extra_keys self (D ++ E) ≡ₚ A) as Hperm.
  { apply NoDup_Permutation.
    - apply NoDup_extra_keys.
    - by apply NoDup_app in Hout as (_ & _ & ?).
    - intros k. rewrite elem_of_extra_keys, fmap_app, elem_of_app, HD, HE, Hfs.
      split; [tauto|]. intros Hk. split; [by right | by apply Hdisj]. }
  eexists (D ++ E), _, (D ++ omap (extra_entry self (D ++ E)) (extra_keys self (D ++ E))).
  split; [|split; [|split]].
  - pose proof (mapper_apply_run self d c Hnd' Hc) as Hrun. rewrite Hfs in Hrun. exact Hrun.
  - rewrite (mapper_apply_run self (D ++ E) c2 Hnd' Hc2), Hfs.
    assert ((λ kc : Key * FilterChain, (kc.1, declared_value self (D ++ E) kc.1 kc.2)) <$> fm
            = D) as ->.
    { apply list_fmap_ext. intros i [k ch] Hkc%list_elem_of_lookup_2. simpl. f_equal.
      pose proof (Hid _ Hkc) as Hch. simpl in Hch. subst ch.
      pose proof (get_declared self d fm k None E Hnd Hkc) as Hg. fold D in Hg.
      unfold declared_value at 1. by rewrite Hg. }
    assert ((fm ≫= λ kc, declared_errors self (D ++ E) kc.1 kc.2) = []) as ->.
    { apply bind_nil_iff. intros [k ch] Hkc. simpl.
      pose proof (Hid _ Hkc) as Hch. simpl in Hch. subst ch.
      pose proof (get_declared self d fm k None E Hnd Hkc) as Hg. fold D in Hg.
      unfold declared_errors. by rewrite Hg. }
    assert ((extra_keys self (D ++ E) ≫= extra_errors self (D ++ E)) = []) as ->.
    { apply bind_nil_iff. intros k Hk. rewrite Hperm in Hk.
      apply list_elem_of_filter in Hk as [Hp _]. unfold extra_errors.
      by destruct (permits (allow_extra_keys self) k). }
    by rewrite extend_nil.
  - apply Permutation_app_head. rewrite Hperm.
    rewrite (omap_ext_in _ (extra_entry self d) A Hentry).
    unfold A, E. rewrite omap_filter_None; [done|].
    intros k _ Hp. unfold extra_entry. by rewrite Hp.
  - rewrite !take_app_length'; [done| |]; unfold D; by rewrite length_fmap.
Qed.

End mapper_more.

(** ** The two filters side by side *)

Section side_by_side.
Context `{Env}.
Implicit Types (d : Mapping) (k : Key).

Lemma extra_keys_no_schema (self : FilterMapper.t) d :
  FilterMapper._filters self = [] → NoDup d.*1 →
  FilterMapper.extra_keys self d ≡ₚ d.*1.
Proof.
  intros Hfs Hnd. apply NoDup_Permutation; [apply NoDup_extra_keys | done |].
  intros k. rewrite elem_of_extra_keys, Hfs. simpl.
  split; [by intros [? _] | intros ?; split; [done | apply not_elem_of_nil]].
Qed.

Lemma extra_entries_of_items (self : FilterMapper.t) d (l : Mapping) :
  (∀ kv, kv ∈ l → get d kv.1 = Some kv.2) →
  omap (extra_entry self d) l.*1
  = filter (λ kv, permits (FilterMapper.allow_extra_keys self) kv.1) l ∧
  (l.*1 ≫= extra_errors self d)
  = (λ kv, mkError FilterMapper.CODE_EXTRA_KEY kv.2
             [KStr (FilterMapper.unicodify_key kv.1)])
      <$> filter (λ kv, ¬ permits (FilterMapper.allow_extra_keys self) kv.1) l.
Proof.
  induction l as [|[k v] l IH]; intros Hget; [done|].
  destruct IH as [IH1 IH2]; [intros; apply Hget; by right|].
  pose proof (Hget (k, v) ltac:(by left)) as Hg. simpl in Hg.
  rewrite fmap_cons, !filter_cons. cbn [omap list_omap mbind list_bind fst snd].
  rewrite IH1, IH2. unfold extra_entry, extra_errors. rewrite Hg.
  by destruct (permits (FilterMapper.allow_extra_keys self) k).
Qed.

(** X12. The two filters treat a restricted key alike.  On a dict, a
    repeater with no filter whose keys are restricted to [ks] and a mapper
    with an empty schema whose extra keys are restricted to [ks] keep the
    same entries and record the same errors, with the same tags; only the
    order may differ, since the repeater follows the input and the mapper
    the iteration of a set. *)
Theorem repeater_mapper_consistent (ks : list Key) d c :
  NoDup d.*1 → _has_errors c = false →
  ∃ out_r out_m errs_r errs_m,
    FilterRepeater._apply (FilterRepeater.__init__ None (Some ks)) (VDict d) c
    = (Ok (VDict out_r), extend c errs_r) ∧
    FilterMapper._apply
      (FilterMapper.__init__ [] (FilterMapper.ArgBool true) (FilterMapper.ArgIterable ks))
      (VDict d) c
    = (Ok (VDict out_m), extend c errs_m) ∧
    out_m ≡ₚ out_r ∧
    errs_m ≡ₚ errs_r.
Proof.
  intros Hnd Hc.
  set (r := FilterRepeater.__init__ None (Some ks)).
  set (m := FilterMapper.__init__ [] (FilterMapper.ArgBool true)
              (FilterMapper.ArgIterable ks)).
  assert (∀ kv, kv ∈ d → get d kv.1 = Some kv.2) as Hget.
  { intros [k v] Hkv. by apply get_elem_of. }
  destruct (extra_entries_of_items m d d Hget) as [Hentries Herrs].
  pose proof (extra_keys_no_schema m d eq_refl Hnd) as Hperm.
  eexists _, _, _, _. split; [|split; [|split]].
  - rewrite returns_apply_mapping by done.
    unfold r, FilterRepeater.__init__.
    rewrite unfiltered_values, unfiltered_errors.
    rewrite OrderedDict_NoDup; [done|].
    rewrite filter_keys. by apply NoDup_filter.
  - by apply mapper_apply_run; [apply NoDup_nil|].
  - simpl. by rewrite Hperm, Hentries.
  - simpl. by rewrite Hperm, Herrs.
Qed.

(** X13. Only the elements of the iterables given to the initializers
    matter, not their order or their repetitions: two iterables with the
    same elements give the same repeater and the same mapper. *)
Theorem iterables_as_sets (ks1 ks2 : list Key) filter_chain fm am ae :
  (∀ k, k ∈ ks1 ↔ k ∈ ks2) →
  FilterRepeater.__init__ filter_chain (Some ks1)
  = FilterRepeater.__init__ filter_chain (Some ks2) ∧
  FilterMapper.__init__ fm (FilterMapper.ArgIterable ks1) ae
  = FilterMapper.__init__ fm (FilterMapper.ArgIterable ks2) ae ∧
  FilterMapper.__init__ fm am (FilterMapper.ArgIterable ks1)
  = FilterMapper.__init__ fm am (FilterMapper.ArgIterable ks2).
Proof.
  intros Hks.
  assert (list_to_set ks1 = (list_to_set ks2 : gset Key)) as Heq.
  { apply set_eq. intros k. by rewrite !elem_of_list_to_set. }
  unfold FilterRepeater.__init__, FilterMapper.__init__. simpl.
  by rewrite Heq.
Qed.

End side_by_side.

(** ** Further concrete runs *)

Section repeater_more_runs.
Import FilterRepeater.
Local Existing Instance default_env.

Lemma repeater_apply_shape_witness :
  let self := __init__ (Some Required) (Some [KStr "x"]) in
  let d := [(KStr "x", VNone); (KStr "y", VInt 2)] in
  ∃ r errs,
    _apply self (VDict d) fresh = (Ok r, extend fresh errs) ∧
    ∃ out, r = VDict out ∧ ∀ k, k ∈ out.*1 → k ∈ d.*1.
Proof.
  apply (repeater_apply_shape
           (__init__ (Some Required) (Some [KStr "x"]))
           (VDict [(KStr "x", VNone); (KStr "y", VInt 2)]) fresh).
  reflexivity.
Defined.

Lemma repeater_unfiltered_subset_witness :
  let d := [(KStr "x", VInt 1); (KNone, VInt 2); (KInt 3, VNone)] in
  let self := __init__ None (Some [KStr "x"; KInt 3]) in
  _apply self (VDict d) fresh
  = (Ok (VDict (filter (λ kv, admitted self kv.1) d)),
     extend fresh ((λ kv, mkError CODE_EXTRA_KEY kv.2 [KStr (unicodify_key kv.1)])
                     <$> filter (λ kv, ¬ admitted self kv.1) d)).
Proof.
  apply (repeater_unfiltered_subset
           (Some [KStr "x"; KInt 3])
           [(KStr "x", VInt 1); (KNone, VInt 2); (KInt 3, VNone)] fresh).
  - by_compute.
  - reflexivity.
Defined.

Lemma repeater_unfiltered_identity_witness :
  _apply (__init__ None None) (VDict [(KStr "x", VInt 1); (KNone, VInt 2)]) fresh
  = (Ok (VDict [(KStr "x", VInt 1); (KNone, VInt 2)]), fresh) ∧
  _apply (__init__ None None) (VStr "ab") fresh
  = (Ok (VList [VStr "a"; VStr "b"]), fresh).
Proof.
  apply (repeater_unfiltered_identity
           [(KStr "x", VInt 1); (KNone, VInt 2)] (VStr "ab")
           [VStr "a"; VStr "b"] fresh).
  - by_compute.
  - reflexivity.
  - reflexivity.
  - reflexivity.
Defined.

Lemma repeater_restriction_covering_witness :
  let ks := [KInt 1; KStr "x"; KInt 0; KInt 5] in
  let d := [(KStr "x", VNone); (KInt 5, VInt 2)] in
  let v := VList [VNone; VInt 7] in
  _apply (__init__ (Some Required) (Some ks)) (VDict d) fresh
  = _apply (__init__ (Some Required) None) (VDict d) fresh ∧
  _apply (__init__ (Some Required) (Some ks)) v fresh
  = _apply (__init__ (Some Required) None) v fresh.
Proof.
  apply (repeater_restriction_covering
           (Some Required) [KInt 1; KStr "x"; KInt 0; KInt 5]
           [(KStr "x", VNone); (KInt 5, VInt 2)]
           (VList [VNone; VInt 7]) [VNone; VInt 7] fresh).
  - reflexivity.
  - reflexivity.
  - reflexivity.
  - intros k Hk. simpl in Hk.
    apply elem_of_cons in Hk as [->|Hk]; [by_compute|].
    apply elem_of_cons in Hk as [->|Hk]; [by_compute|].
    by apply elem_of_nil in Hk.
  - intros [|[|i]] Hi; [by_compute | by_compute | simpl in Hi; lia].
Defined.

End repeater_more_runs.

Section mapper_more_runs.
Import FilterMapper.
Local Existing Instance default_env.

Lemma mapper_apply_shape_witness :
  let self := __init__ [(KStr "a", Some Required)] (ArgBool false) (ArgBool false) in
  let d := [(KStr "b", VInt 2)] in
  ∃ r errs,
    _apply self (VDict d) fresh = (Ok r, extend fresh errs) ∧
    ∃ out, r = VDict out ∧
           ∀ k, k ∈ out.*1 → k ∈ (_filters self).*1 ∨ k ∈ d.*1.
Proof.
  apply (mapper_apply_shape
           (__init__ [(KStr "a", Some Required)] (ArgBool false) (ArgBool false))
           (VDict [(KStr "b", VInt 2)]) fresh).
  reflexivity.
Defined.

Lemma mapper_present_key_filtered_witness :
  let fm := [(KStr "a", Some Required)] in
  let d := [(KStr "a", VNone)] in
  let self := __init__ fm (ArgBool false) (ArgBool false) in
  returns (iter_declared_item self d (KStr "a") (Some Required))
          (apply_chain (Some Required) VNone).1
          (under (KStr "a") <$> (apply_chain (Some Required) VNone).2) ∧
  ∃ out,
    _apply self (VDict d) fresh =
      (Ok (VDict out),
       extend fresh
         ((fm ≫= λ kc, log (iter_declared_item self d kc.1 kc.2))
          ++ (extra_keys self d ≫= λ k, log (iter_extra_item self d k)))) ∧
    get out (KStr "a") = Some (apply_chain (Some Required) VNone).1.
Proof.
  apply (mapper_present_key_filtered
           [(KStr "a", Some Required)] (ArgBool false) (ArgBool false)
           [(KStr "a", VNone)] fresh (KStr "a") (Some Required) VNone).
  - by_compute.
  - reflexivity.
  - apply list_elem_of_here.
  - reflexivity.
Defined.

Lemma mapper_unfiltered_accepts_iff_witness :
  let fm := [(KStr "a", None); (KStr "b", None)] in
  let d := [(KStr "b", VInt 2); (KStr "c", VInt 3)] in
  let self := __init__ fm (ArgIterable [KStr "a"]) (ArgIterable [KStr "c"]) in
  ∃ out errs,
    _apply self (VDict d) fresh = (Ok (VDict out), extend fresh errs) ∧
    (errs = []
     ↔ (∀ k, k ∈ fm.*1 →
             k ∈ d.*1 ∨ _missing_key_allowed self (of_key k) = Ok true) ∧
       (∀ k, k ∈ d.*1 →
             k ∈ fm.*1 ∨ _extra_key_allowed self (of_key k) = Ok true)).
Proof.
  apply (mapper_unfiltered_accepts_iff
           [(KStr "a", None); (KStr "b", None)]
           (ArgIterable [KStr "a"]) (ArgIterable [KStr "c"])
           [(KStr "b", VInt 2); (KStr "c", VInt 3)] fresh).
  - by_compute.
  - reflexivity.
  - intros kc [->|[->|[]%elem_of_nil]%elem_of_cons]%elem_of_cons; reflexivity.
Defined.

Lemma mapper_default_policies_witness :
  let fm := [(KStr "a", Some Required); (KStr "b", None)] in
  let d := [(KStr "z", VInt 9); (KStr "b", VInt 2)] in
  let self := __init__ fm (ArgBool true) (ArgBool true) in
  ∃ out,
    _apply self (VDict d) fresh
    = (Ok (VDict out),
       extend fresh
         (fm ≫= λ kc, under kc.1
                        <$> (apply_chain kc.2 (default VNone (get d kc.1))).2)) ∧
    (∀ k, k ∈ out.*1 ↔ k ∈ fm.*1 ∨ k ∈ d.*1) ∧
    (∀ k v, get d k = Some v → k ∉ fm.*1 → get out k = Some v).
Proof.
  apply (mapper_default_policies
           [(KStr "a", Some Required); (KStr "b", None)]
           [(KStr "z", VInt 9); (KStr "b", VInt 2)] fresh).
  - by_compute.
  - reflexivity.
Defined.

Lemma mapper_input_order_irrelevant_witness :
  let fm := [(KStr "a", Some Required); (KStr "b", None); (KStr "c", None)] in
  _apply (__init__ fm (ArgBool false) (ArgBool false))
         (VDict [(KStr "b", VInt 2); (KStr "a", VNone)]) fresh
  = _apply (__init__ fm (ArgBool false) (ArgBool false))
           (VDict [(KStr "a", VNone); (KStr "b", VInt 2)]) fresh.
Proof.
  apply (mapper_input_order_irrelevant
           [(KStr "a", Some Required); (KStr "b", None); (KStr "c", None)]
           (ArgBool false) (ArgBool false)
           [(KStr "b", VInt 2); (KStr "a", VNone)]
           [(KStr "a", VNone); (KStr "b", VInt 2)] fresh).
  - by_compute.
  - reflexivity.
  - by_compute.
  - apply perm_swap.
  - intros k Hk. simpl in Hk.
    apply elem_of_cons in Hk as [->|Hk]; [by_compute|].
    apply elem_of_cons in Hk as [->|Hk]; [by_compute|].
    by apply elem_of_nil in Hk.
Defined.

Lemma mapper_unfiltered_reapply_witness :
  let fm := [(KStr "a", None); (KStr "b", None)] in
  let d := [(KStr "z", VInt 9); (KStr "b", VInt 2); (KStr "y", VInt 8)] in
  let self := __init__ fm (ArgBool false) (ArgIterable [KStr "z"]) in
  ∃ out c' out2,
    _apply self (VDict d) fresh = (Ok (VDict out), c') ∧
    _apply self (VDict out) fresh = (Ok (VDict out2), fresh) ∧
    out2 ≡ₚ out ∧
    take (length fm) out2 = take (length fm) out.
Proof.
  apply (mapper_unfiltered_reapply
           [(KStr "a", None); (KStr "b", None)]
           (ArgBool false) (ArgIterable [KStr "z"])
           [(KStr "z", VInt 9); (KStr "b", VInt 2); (KStr "y", VInt 8)]
           fresh fresh).
  - by_compute.
  - intros kc [->|[->|[]%elem_of_nil]%elem_of_cons]%elem_of_cons; reflexivity.
  - reflexivity.
  - reflexivity.
Defined.

Lemma repeater_mapper_consistent_witness :
  let ks := [KStr "x"; KInt 3] in
  let d := [(KStr "x", VInt 1); (KNone, VInt 2); (KInt 3, VNone)] in
  ∃ out_r out_m errs_r errs_m,
    FilterRepeater._apply (FilterRepeater.__init__ None (Some ks)) (VDict d) fresh
    = (Ok (VDict out_r), extend fresh errs_r) ∧
    _apply (__init__ [] (ArgBool true) (ArgIterable ks)) (VDict d) fresh
    = (Ok (VDict out_m), extend fresh errs_m) ∧
    out_m ≡ₚ out_r ∧
    errs_m ≡ₚ errs_r.
Proof.
  apply (repeater_mapper_consistent
           [KStr "x"; KInt 3]
           [(KStr "x", VInt 1); (KNone, VInt 2); (KInt 3, VNone)] fresh).
  - by_compute.
  - reflexivity.
Defined.

Lemma iterables_as_sets_witness :
  let ks1 := [KStr "a"; KInt 1; KStr "a"] in
  let ks2 := [KInt 1; KStr "a"] in
  FilterRepeater.__init__ None (Some ks1) = FilterRepeater.__init__ None (Some ks2) ∧
  __init__ [] (ArgIterable ks1) (ArgBool true)
  = __init__ [] (ArgIterable ks2) (ArgBool true) ∧
  __init__ [] (ArgBool true) (ArgIterable ks1)
  = __init__ [] (ArgBool true) (ArgIterable ks2).
Proof.
  apply (iterables_as_sets
           [KStr "a"; KInt 1; KStr "a"] [KInt 1; KStr "a"]
           None [] (ArgBool true) (ArgBool true)).
  intros k. rewrite !elem_of_cons, elem_of_nil. tauto.
Defined.

End mapper_more_runs.
